(** * A height-balanced binary search tree that stores balance factors only

    Shallow embedding of [utils/binary_search_tree.py] (class [BSTree] and
    its inner class [BSTree.Node]) and the properties of its specification.

    Values are Python integers ([Z]); Python's [None] is the [None] of
    [option].  A child slot ([Optional[BSTree.Node]]) is an [option node].
    The Python code mutates nodes in place and hands the new subtree root
    back to the caller; no node is ever shared between two parents, so a
    subtree is modelled by its value.  What in-place mutation makes visible
    when an exception cuts an operation short is kept: a raised exception
    carries the state the receiver object is left in. *)

From Stdlib Require Import ZArith List Lia Bool Sorted Permutation.
From Stdlib Require Ascii String DecimalString DecimalPos DecimalZ.
Import ListNotations.
Import Ascii.AsciiSyntax String.StringSyntax.
Delimit Scope string_scope with string.
Delimit Scope char_scope with char.
Local Open Scope Z_scope.

(** ** Data model *)

(** [BSTree.Node.__init__(value, balance, left, right)]. *)
Unset Elimination Schemes.
Inductive node : Type :=
| Node (value : Z) (bf : Z) (left : option node) (right : option node).
Set Elimination Schemes.

(** A property of the node in a child slot, if there is one. *)
Definition present (P : node -> Prop) (slot : option node) : Prop :=
  match slot with
  | Some x => P x
  | None => True
  end.

(** Structural induction on nodes, with the hypothesis for both children. *)
Fixpoint node_induction (P : node -> Prop)
    (step : forall v b l r, present P l -> present P r -> P (Node v b l r))
    (n : node) : P n :=
  match n with
  | Node v b l r =>
      step v b l r
        match l return present P l with
        | Some x => node_induction P step x
        | None => I
        end
        match r return present P r with
        | Some x => node_induction P step x
        | None => I
        end
  end.

(** The exceptions the module raises. *)
Inductive exn : Type :=
| RuntimeError
| ValueError
| AssertionError
| IndexError.

(** Result of a node method that may raise after having mutated its
    receiver: either the returned subtree root, or the exception together
    with the state of the receiver ([self]) at the time it propagates. *)
Inductive outcome (A : Type) : Type :=
| Return (res : A)
| Raise (e : exn) (self' : node).
Arguments Return {A} res.
Arguments Raise {A} e self'.

(** Result of a read-only method. *)
Inductive result (A : Type) : Type :=
| Ok (res : A)
| Exn (e : exn).
Arguments Ok {A} res.
Arguments Exn {A} e.

(** [BSTree]: the optional root node is the only field. *)
Record bstree : Type := mkBSTree { root : option node }.

(** ** Python strings

    What [__str__] uses of Python's [str]: strings are [String.string],
    lengths and widths are Python integers. *)

(** [len(s)] *)
Definition str_len (s : String.string) : Z := Z.of_nat (String.length s).

(** [k * s]; a count below 1 gives the empty string. *)
Definition str_mul (k : Z) (s : String.string) : String.string :=
  String.concat ""%string (repeat s (Z.to_nat k)).

(** [s.ljust(width)] and [s.rjust(width)]: padding with spaces, none when
    the string is already that long. *)
Definition ljust (s : String.string) (width : Z) : String.string :=
  String.append s (str_mul (width - str_len s) " "%string).

Definition rjust (s : String.string) (width : Z) : String.string :=
  String.append (str_mul (width - str_len s) " "%string) s.

(** [str(v)] of an integer: decimal digits, a minus sign in front when
    negative. *)
Definition str_of_int (v : Z) : String.string :=
  DecimalString.NilZero.string_of_int (Z.to_int v).

(** [repr(v)] of an integer is [str(v)]; [repr] of a list of integers
    puts the elements between square brackets, separated by a comma and a
    space. *)
Definition repr_int (v : Z) : String.string := str_of_int v.

Definition repr_list (vals : list Z) : String.string :=
  String.append "["%string
    (String.append (String.concat ", "%string (map repr_int vals)) "]"%string).

(** The one-character strings of the source: a backslash, a line feed. *)
Definition backslash : String.string :=
  String.String (Ascii.ascii_of_nat 92) String.EmptyString.

Definition newline : String.string :=
  String.String (Ascii.ascii_of_nat 10) String.EmptyString.

(** ** Node operations *)

Module Node.

Definition value (self : node) : Z := let 'Node v _ _ _ := self in v.
Definition bf (self : node) : Z := let 'Node _ b _ _ := self in b.
Definition left (self : node) : option node := let 'Node _ _ l _ := self in l.
Definition right (self : node) : option node := let 'Node _ _ _ r := self in r.

(** [__len__] *)
Fixpoint len (self : node) : Z :=
  match self with
  | Node _ _ l r =>
      let left_len := match l with Some x => len x | None => 0 end in
      let right_len := match r with Some x => len x | None => 0 end in
      1 + left_len + right_len
  end.

(** [__iter__]: the values the generator yields, in order. *)
Fixpoint iter (self : node) : list Z :=
  match self with
  | Node v _ l r =>
      match l with Some x => iter x | None => [] end
      ++ v :: match r with Some x => iter x | None => [] end
  end.

(** [__reversed__] *)
Fixpoint reversed (self : node) : list Z :=
  match self with
  | Node v _ l r =>
      match r with Some x => reversed x | None => [] end
      ++ v :: match l with Some x => reversed x | None => [] end
  end.

(** [height]: default child heights are -1. *)
Fixpoint height (self : node) : Z :=
  match self with
  | Node _ _ l r =>
      let left_height := match l with Some x => height x | None => -1 end in
      let right_height := match r with Some x => height x | None => -1 end in
      Z.max left_height right_height + 1
  end.

(** [find_min]: the loop [while node.left is not None: node = node.left]. *)
Fixpoint find_min (self : node) : Z :=
  match self with
  | Node v _ l _ => match l with Some x => find_min x | None => v end
  end.

(** [find_max] *)
Fixpoint find_max (self : node) : Z :=
  match self with
  | Node v _ _ r => match r with Some x => find_max x | None => v end
  end.

(** [rotate_left]: raises before touching anything when there is no right
    child; [b.bf] is updated from the already updated [self.bf]. *)
Definition rotate_left (self : node) : outcome node :=
  match self with
  | Node v sbf l r =>
      match r with
      | None => Raise ValueError self
      | Some (Node bv bbf bl br) =>
          let self_bf := sbf - (1 + Z.max bbf 0) in
          let b_bf := bbf - (1 - Z.min self_bf 0) in
          Return (Node bv b_bf (Some (Node v self_bf l bl)) br)
      end
  end.

(** [rotate_right] *)
Definition rotate_right (self : node) : outcome node :=
  match self with
  | Node v sbf l r =>
      match l with
      | None => Raise ValueError self
      | Some (Node bv bbf bl br) =>
          let self_bf := sbf + (1 - Z.min bbf 0) in
          let b_bf := bbf + (1 + Z.max self_bf 0) in
          Return (Node bv b_bf bl (Some (Node v self_bf br r)))
      end
  end.

(** [balance] *)
Definition balance (self : node) : outcome node :=
  match self with
  | Node v sbf l r =>
      if sbf <? -1 then
        match l with
        | None => Raise AssertionError self
        | Some ln =>
            if bf ln <=? 0 then rotate_right self
            else
              match rotate_left ln with
              | Raise e ln' => Raise e (Node v sbf (Some ln') r)
              | Return ln' => rotate_right (Node v sbf (Some ln') r)
              end
        end
      else if sbf >? 1 then
        match r with
        | None => Raise AssertionError self
        | Some rn =>
            if bf rn >=? 0 then rotate_left self
            else
              match rotate_right rn with
              | Raise e rn' => Raise e (Node v sbf l (Some rn'))
              | Return rn' => rotate_left (Node v sbf l (Some rn'))
              end
        end
      else Return self
  end.

(** The test of [insert] on a child's balance factor before and after the
    recursive call: "the subtree must have increased in height". *)
Definition grew (old_bf : Z) (child : node) : bool :=
  (old_bf <=? 0) && (bf child <? old_bf)
  || (old_bf >=? 0) && (bf child >? old_bf).

(** [insert] *)
Fixpoint insert (self : node) (val : Z) : outcome node :=
  match self with
  | Node v sbf l r =>
      if val =? v then Raise RuntimeError self
      else if val <? v then
        match l with
        | None => balance (Node v (sbf - 1) (Some (Node val 0 None None)) r)
        | Some ln =>
            let old_bf := bf ln in
            match insert ln val with
            | Raise e ln' => Raise e (Node v sbf (Some ln') r)
            | Return ln' =>
                if grew old_bf ln'
                then balance (Node v (sbf - 1) (Some ln') r)
                else balance (Node v sbf (Some ln') r)
            end
        end
      else if val >? v then
        match r with
        | None => balance (Node v (sbf + 1) l (Some (Node val 0 None None)))
        | Some rn =>
            let old_bf := bf rn in
            match insert rn val with
            | Raise e rn' => Raise e (Node v sbf l (Some rn'))
            | Return rn' =>
                if grew old_bf rn'
                then balance (Node v (sbf + 1) l (Some rn'))
                else balance (Node v sbf l (Some rn'))
            end
        end
      else balance self
  end.

(** The test of [delete] on a child slot after the recursive call: "the
    subtree must have decreased in height". *)
Definition shrunk (old_bf : Z) (child : option node) : bool :=
  match child with
  | None => true
  | Some c => (Z.abs old_bf =? 1) && (bf c =? 0)
  end.

(** [return self.balance()] at the end of [delete], whose result type is
    [Optional[BSTree.Node]]. *)
Definition balanced (self : node) : outcome (option node) :=
  match balance self with
  | Return n => Return (Some n)
  | Raise e s => Raise e s
  end.

(** [delete] *)
Fixpoint delete (self : node) (val : Z) : outcome (option node) :=
  match self with
  | Node v sbf l r =>
      if val <? v then
        match l with
        | None => Raise RuntimeError self
        | Some ln =>
            let old_bf := bf ln in
            match delete ln val with
            | Raise e ln' => Raise e (Node v sbf (Some ln') r)
            | Return l' =>
                if shrunk old_bf l'
                then balanced (Node v (sbf + 1) l' r)
                else balanced (Node v sbf l' r)
            end
        end
      else if val >? v then
        match r with
        | None => Raise RuntimeError self
        | Some rn =>
            let old_bf := bf rn in
            match delete rn val with
            | Raise e rn' => Raise e (Node v sbf l (Some rn'))
            | Return r' =>
                if shrunk old_bf r'
                then balanced (Node v (sbf - 1) l r')
                else balanced (Node v sbf l r')
            end
        end
      else
        match l with
        | None => Return r
        | Some ln =>
            match r with
            | None => Return l
            | Some _ =>
                let successor_val := find_max ln in
                let old_bf := bf ln in
                match delete ln successor_val with
                | Raise e ln' => Raise e (Node successor_val sbf (Some ln') r)
                | Return l' =>
                    if shrunk old_bf l'
                    then balanced (Node successor_val (sbf + 1) l' r)
                    else balanced (Node successor_val sbf l' r)
                end
            end
        end
  end.

(** [__str__]: [str(self.value)], the value being an integer. *)
Definition str (self : node) : String.string := str_of_int (value self).

(** [__repr__], the class name being [Node]. *)
Definition repr (self : node) : String.string :=
  String.append "Node"%string
    (String.append "("%string
       (String.append (repr_int (value self))
          (String.append ", balance="%string
             (String.append (repr_int (bf self)) ")"%string)))).

End Node.

(** ** Container operations *)

Module BSTree.

(** [__len__] *)
Definition len (self : bstree) : Z :=
  match root self with
  | None => 0
  | Some n => Node.len n
  end.

(** [__iter__] *)
Definition iter (self : bstree) : list Z :=
  match root self with
  | None => []
  | Some n => Node.iter n
  end.

(** [__reversed__] *)
Definition reversed (self : bstree) : list Z :=
  match root self with
  | None => []
  | Some n => Node.reversed n
  end.

(** The loop of [__getitem__] over [enumerate(...)], [i] being the counter;
    falling off the end of the enumeration raises [IndexError]. *)
Fixpoint getitem_loop (pos : Z) (i : Z) (vals : list Z) : result Z :=
  match vals with
  | [] => Exn IndexError
  | val :: rest =>
      if (if pos <? 0 then - i - 1 else i) =? pos then Ok val
      else getitem_loop pos (i + 1) rest
  end.

(** [__getitem__] *)
Definition getitem (self : bstree) (pos : Z) : result Z :=
  getitem_loop pos 0 (if pos <? 0 then reversed self else iter self).

(** [__contains__]: the loop [while node is not None], entered at a present
    node; moving to an absent child ends it with [False]. *)
Fixpoint contains_loop (node : node) (val : Z) : bool :=
  match node with
  | Node v _ l r =>
      if val <? v then
        match l with Some x => contains_loop x val | None => false end
      else if val >? v then
        match r with Some x => contains_loop x val | None => false end
      else true
  end.

Definition contains (self : bstree) (val : Z) : bool :=
  match root self with
  | None => false
  | Some n => contains_loop n val
  end.

(** [insert]: the bare [except:] turns every exception into [False]; the
    root keeps pointing to the object the failed call was made on. *)
Definition insert (self : bstree) (val : option Z) : bool * bstree :=
  match val with
  | None => (false, self)
  | Some v =>
      match root self with
      | None => (true, mkBSTree (Some (Node v 0 None None)))
      | Some n =>
          match Node.insert n v with
          | Return n' => (true, mkBSTree (Some n'))
          | Raise _ n' => (false, mkBSTree (Some n'))
          end
      end
  end.

(** [delete] *)
Definition delete (self : bstree) (val : option Z) : bool * bstree :=
  match val with
  | None => (false, self)
  | Some v =>
      match root self with
      | None => (false, self)
      | Some n =>
          match Node.delete n v with
          | Return r' => (true, mkBSTree r')
          | Raise _ n' => (false, mkBSTree (Some n'))
          end
      end
  end.

(** [__setitem__]: [self.delete(self[pos]); self.insert(val)], both
    booleans dropped. *)
Definition setitem (self : bstree) (pos : Z) (val : option Z)
  : result unit * bstree :=
  match getitem self pos with
  | Exn e => (Exn e, self)
  | Ok old =>
      let self1 := snd (delete self (Some old)) in
      let self2 := snd (insert self1 val) in
      (Ok tt, self2)
  end.

(** The loop of [index] over [enumerate(self)]. *)
Fixpoint index_loop (val : Z) (i : Z) (vals : list Z) : result Z :=
  match vals with
  | [] => Exn ValueError
  | v :: rest => if v =? val then Ok i else index_loop val (i + 1) rest
  end.

(** [index] *)
Definition index (self : bstree) (val : Z) : result Z :=
  index_loop val 0 (iter self).

(** [__init__]: every element of the iterable is inserted and the boolean
    answer is dropped. *)
Definition init (iterable : option (list (option Z))) : bstree :=
  match iterable with
  | None => mkBSTree None
  | Some vals =>
      fold_left (fun self val => snd (insert self val)) vals (mkBSTree None)
  end.

(** [__bool__] *)
Definition bool_ (self : bstree) : bool :=
  match root self with
  | None => false
  | Some _ => true
  end.

(** The local function [str_helper] of [__str__]: the lines of the
    rendering of a subtree, their width, their number, and the column of the
    middle of the root's label. *)
Fixpoint str_helper (t : node) : list String.string * Z * Z * Z :=
  match t with
  | Node _ _ l r =>
      match l, r with
      | None, None =>
          let line := Node.str t in
          let width := str_len line in
          let height := 1 in
          let middle := width / 2 in
          ([line], width, height, middle)
      | None, Some tr =>
          let '(lines, n, p, x) := str_helper tr in
          let s := Node.str t in
          let u := str_len s in
          let first_line := String.append s (ljust (str_mul x "_"%string) n) in
          let second_line := ljust (rjust backslash (u + x + 1)) (n + u) in
          let shifted_lines :=
            map (fun line => String.append (str_mul u " "%string) line) lines in
          (first_line :: second_line :: shifted_lines, n + u, p + 2, u / 2)
      | Some tl, None =>
          let '(lines, n, p, x) := str_helper tl in
          let s := Node.str t in
          let u := str_len s in
          let first_line := String.append (rjust (str_mul (n - x - 1) "_"%string) n) s in
          let second_line := ljust (rjust "/"%string (x + 1)) (n + u) in
          let shifted_lines :=
            map (fun line => String.append line (str_mul u " "%string)) lines in
          (first_line :: second_line :: shifted_lines, n + u, p + 2, n + u / 2)
      | Some tl, Some tr =>
          let '(left_, n, p, x) := str_helper tl in
          let '(right_, m, q, y) := str_helper tr in
          let s := Node.str t in
          let u := str_len s in
          let first_line :=
            String.append (rjust (str_mul (n - x - 1) "_"%string) n)
              (String.append s (ljust (str_mul y "_"%string) m)) in
          let second_line :=
            String.append (ljust (rjust "/"%string (x + 1)) n)
              (String.append (str_mul u " "%string)
                 (ljust (rjust backslash (y + 1)) m)) in
          let left_ :=
            if p <? q then left_ ++ repeat (str_mul n " "%string) (Z.to_nat (q - p))
            else left_ in
          let right_ :=
            if p <? q then right_
            else if q <? p
                 then right_ ++ repeat (str_mul m " "%string) (Z.to_nat (p - q))
                 else right_ in
          let lines :=
            first_line :: second_line
            :: map (fun ab => String.append (fst ab)
                                (String.append (str_mul u " "%string) (snd ab)))
                 (combine left_ right_) in
          (lines, n + m + u, Z.max p q + 2, n + u / 2)
      end
  end.

(** [__repr__], the class name being [BSTree]; an empty list of values
    is falsy. *)
Definition repr (self : bstree) : String.string :=
  let values := iter self in
  match values with
  | _ :: _ =>
      String.append "BSTree"%string
        (String.append "("%string (String.append (repr_list values) ")"%string))
  | [] => String.append "BSTree"%string "()"%string
  end.

(** [__str__] *)
Definition str (self : bstree) : String.string :=
  match root self with
  | None => ""%string
  | Some n => let '(lines, _, _, _) := str_helper n in String.concat newline lines
  end.

End BSTree.

(** ** Invariants and observations *)

(** Height of what a child slot holds; an absent subtree has height -1. *)
Definition oheight (slot : option node) : Z :=
  match slot with
  | Some x => Node.height x
  | None => -1
  end.

(** In-order values of what a child slot holds. *)
Definition oiter (slot : option node) : list Z :=
  match slot with
  | Some x => Node.iter x
  | None => []
  end.

(** Every stored balance factor is the height difference recomputed from
    scratch. *)
Fixpoint bf_exact (n : node) : Prop :=
  match n with
  | Node _ b l r =>
      b = oheight r - oheight l /\ present bf_exact l /\ present bf_exact r
  end.

(** The balance invariant: exact balance factors, all within -1..1. *)
Fixpoint avl (n : node) : Prop :=
  match n with
  | Node _ b l r =>
      b = oheight r - oheight l /\ -1 <= b <= 1
      /\ present avl l /\ present avl r
  end.

(** The order invariant, node by node. *)
Fixpoint ordered (n : node) : Prop :=
  match n with
  | Node v _ l r =>
      Forall (fun x => x < v) (oiter l) /\ Forall (fun x => v < x) (oiter r)
      /\ present ordered l /\ present ordered r
  end.

(** Strictly ascending lists. *)
Definition ascending (l : list Z) : Prop := StronglySorted Z.lt l.

(** All the nodes of a subtree. *)
Fixpoint nodes (n : node) : list node :=
  match n with
  | Node _ _ l r =>
      n :: match l with Some x => nodes x | None => [] end
        ++ match r with Some x => nodes x | None => [] end
  end.

(** Trees the public interface can produce: the empty tree, and whatever
    [insert] and [delete] leave behind, whether they succeed or not. *)
Inductive reachable : bstree -> Prop :=
| reach_empty : reachable (BSTree.init None)
| reach_insert self val :
    reachable self -> reachable (snd (BSTree.insert self val))
| reach_delete self val :
    reachable self -> reachable (snd (BSTree.delete self val)).

(** Both invariants of the specification, for the whole tree. *)
Definition invariants (self : bstree) : Prop :=
  present avl (root self) /\ ascending (BSTree.iter self).

(** The value at a rank of an enumeration, [IndexError] beyond its end. *)
Definition lookup (vals : list Z) (k : nat) : result Z :=
  match nth_error vals k with
  | Some x => Ok x
  | None => Exn IndexError
  end.

(** The reading of "set(i, v) either replaces the rank-i value with v or
    leaves the tree as it was": afterwards the tree is the one before, or
    its values are the old ones without the rank-i value, with [v]. *)
Definition set_replaces_or_keeps (self : bstree) (i : Z) (val : option Z)
  : Prop :=
  let self' := snd (BSTree.setitem self i val) in
  self' = self
  \/ exists old v,
       BSTree.getitem self i = Ok old /\ val = Some v
       /\ forall x, In x (BSTree.iter self')
                    <-> x = v \/ (In x (BSTree.iter self) /\ x <> old).

(** A call of one of the two mutating methods. *)
Inductive call : Type :=
| CallInsert (val : option Z)
| CallDelete (val : option Z).

(** The tree after a call, its boolean answer dropped. *)
Definition perform (self : bstree) (c : call) : bstree :=
  match c with
  | CallInsert val => snd (BSTree.insert self val)
  | CallDelete val => snd (BSTree.delete self val)
  end.

(** The tree after a sequence of calls on the empty tree. *)
Definition run (calls : list call) : bstree :=
  fold_left perform calls (BSTree.init None).

(** The value set the specification assigns to a sequence of calls: a set
    of values to which [insert] adds and from which [delete] removes, [None]
    being ignored by both. *)
Definition spec_step (held : Z -> Prop) (c : call) : Z -> Prop :=
  match c with
  | CallInsert (Some v) => fun x => x = v \/ held x
  | CallDelete (Some v) => fun x => held x /\ x <> v
  | _ => held
  end.

Definition spec_values (calls : list call) : Z -> Prop :=
  fold_left spec_step calls (fun _ => False).

(** Fibonacci numbers, for the least number of values a balanced tree
    of a given height holds. *)
Fixpoint fib (k : nat) : Z :=
  match k with
  | O => 0
  | S k' =>
      match k' with
      | O => 1
      | S k'' => fib k' + fib k''
      end
  end.

(** Number of values of what a child slot holds. *)
Definition olen (slot : option node) : Z :=
  match slot with
  | Some x => Node.len x
  | None => 0
  end.

(** What [str_helper] promises about its four results for a subtree: as
    many lines as it says, two per level below the root's, all of the width
    it says, and a middle column that falls inside the root's label on the
    first line. *)
Definition well_rendered (t : node)
    (res : list String.string * Z * Z * Z) : Prop :=
  let '(lines, n, p, x) := res in
  Z.of_nat (length lines) = p
  /\ p = 2 * Node.height t + 1
  /\ Forall (fun line => str_len line = n) lines
  /\ 0 <= x < n
  /\ exists pre post,
       hd ""%string lines
         = String.append pre (String.append (Node.str t) post)
       /\ str_len pre = x - str_len (Node.str t) / 2.

(** Every character of a string satisfies [P]. *)
Fixpoint all_chars (P : Ascii.ascii -> Prop) (s : String.string) : Prop :=
  match s with
  | String.EmptyString => True
  | String.String c s' => P c /\ all_chars P s'
  end.

(** The characters that end a number inside a [repr]. *)
Definition closes (c : Ascii.ascii) : Prop :=
  c = ","%char \/ c = "]"%char \/ c = ")"%char.

(** A string that is empty or begins with a closing character. *)
Definition closed_here (s : String.string) : Prop :=
  match s with
  | String.EmptyString => True
  | String.String c _ => closes c
  end.

(** ** Heights and rotations *)

Lemma height_Node v b l r :
  Node.height (Node v b l r) = Z.max (oheight l) (oheight r) + 1.
Proof. reflexivity. Qed.

Lemma iter_Node v b l r :
  Node.iter (Node v b l r) = oiter l ++ v :: oiter r.
Proof. reflexivity. Qed.

Lemma height_nonneg n : 0 <= Node.height n.
Proof.
  induction n as [v b l r IHl IHr] using node_induction. rewrite height_Node.
  destruct l, r; simpl in *; lia.
Qed.

Lemma oheight_ge slot : -1 <= oheight slot.
Proof. destruct slot; simpl; [pose proof (height_nonneg n)|]; lia. Qed.

Lemma avl_bf_exact n : avl n -> bf_exact n.
Proof.
  induction n as [v b l r IHl IHr] using node_induction. simpl. intros (Hb & _ & Hl & Hr).
  repeat split; trivial.
  - destruct l; simpl in *; auto.
  - destruct r; simpl in *; auto.
Qed.

Lemma rotate_left_exact v b l bv bb bl br :
  b = oheight (Some (Node bv bb bl br)) - oheight l ->
  bb = oheight br - oheight bl ->
  exists b' bb',
    Node.rotate_left (Node v b l (Some (Node bv bb bl br)))
      = Return (Node bv bb' (Some (Node v b' l bl)) br)
    /\ b' = b - (1 + Z.max bb 0)
    /\ bb' = bb - (1 - Z.min b' 0)
    /\ b' = oheight bl - oheight l
    /\ bb' = oheight br - oheight (Some (Node v b' l bl)).
Proof.
  intros Hb Hbb. do 2 eexists. split; [reflexivity|].
  cbn [oheight] in *. rewrite !height_Node in *.
  pose proof (oheight_ge l). pose proof (oheight_ge bl).
  pose proof (oheight_ge br). lia.
Qed.

Lemma rotate_right_exact v b r bv bb bl br :
  b = oheight r - oheight (Some (Node bv bb bl br)) ->
  bb = oheight br - oheight bl ->
  exists b' bb',
    Node.rotate_right (Node v b (Some (Node bv bb bl br)) r)
      = Return (Node bv bb' bl (Some (Node v b' br r)))
    /\ b' = b + (1 - Z.min bb 0)
    /\ bb' = bb + (1 + Z.max b' 0)
    /\ b' = oheight r - oheight br
    /\ bb' = oheight (Some (Node v b' br r)) - oheight bl.
Proof.
  intros Hb Hbb. do 2 eexists. split; [reflexivity|].
  cbn [oheight] in *. rewrite !height_Node in *.
  pose proof (oheight_ge r). pose proof (oheight_ge bl).
  pose proof (oheight_ge br). lia.
Qed.

(** ** Rebalancing *)

(** Unfold heights, stored balance factors and in-order lists one
    constructor deep, everywhere. *)
Ltac unfold_nodes :=
  repeat (progress (cbn [oheight oiter Node.bf present avl] in *;
                    rewrite ?height_Node, ?iter_Node in * )).

Ltac finish_balance :=
  repeat split; auto; try lia;
  try (rewrite <- ?app_assoc; simpl; rewrite <- ?app_assoc; reflexivity).

(** What [balance] does to a node whose children satisfy the balance
    invariant and whose own balance factor is exact and at most 2 away from
    zero: it succeeds, keeps the in-order sequence, re-establishes the
    invariant, and the height drops by one exactly in the cases listed. *)
Lemma balance_spec v b l r :
  present avl l -> present avl r ->
  b = oheight r - oheight l -> -2 <= b <= 2 ->
  exists n',
    Node.balance (Node v b l r) = Return n'
    /\ avl n'
    /\ Node.iter n' = Node.iter (Node v b l r)
    /\ ((-1 <= b <= 1 /\ n' = Node v b l r)
        \/ (b = -2 /\ Node.height n' = Node.height (Node v b l r)
            /\ Node.bf n' = 1 /\ present (fun c => Node.bf c = 0) l)
        \/ (b = -2 /\ Node.height n' = Node.height (Node v b l r) - 1
            /\ Node.bf n' = 0 /\ present (fun c => Node.bf c <> 0) l)
        \/ (b = 2 /\ Node.height n' = Node.height (Node v b l r)
            /\ Node.bf n' = -1 /\ present (fun c => Node.bf c = 0) r)
        \/ (b = 2 /\ Node.height n' = Node.height (Node v b l r) - 1
            /\ Node.bf n' = 0 /\ present (fun c => Node.bf c <> 0) r)).
Proof.
  intros Hl Hr Hb Hrange.
  pose proof (oheight_ge l) as Gl. pose proof (oheight_ge r) as Gr.
  unfold Node.balance.
  destruct (Z.ltb_spec b (-1)) as [Hlt|Hge].
  - (* left-heavy *)
    destruct l as [[lv lb ll lr]|]; [|unfold_nodes; lia].
    pose proof Hl as (Hlb & Hlr & Hll & Hlrr).
    pose proof (oheight_ge ll). pose proof (oheight_ge lr).
    cbn [Node.bf]. destruct (Z.leb_spec lb 0) as [Hle|Hgt].
    + (* left-left: one right rotation *)
      destruct (rotate_right_exact v b r lv lb ll lr Hb Hlb)
        as (b' & bb' & E & _ & _ & Hb' & Hbb').
      rewrite E. eexists. split; [reflexivity|]. unfold_nodes.
      finish_balance.
    + (* left-right: rotate the left child left, then this node right *)
      destruct lr as [[rv rb rl rr]|]; [|unfold_nodes; lia].
      pose proof Hlrr as (Hrb & Hrr & Hrl & Hrrr).
      pose proof (oheight_ge rl). pose proof (oheight_ge rr).
      destruct (rotate_left_exact lv lb ll rv rb rl rr Hlb Hrb)
        as (c' & cc' & E1 & _ & _ & Hc' & Hcc').
      rewrite E1.
      assert (Hb2 : b = oheight r
                        - oheight (Some (Node rv cc' (Some (Node lv c' ll rl)) rr)))
        by (unfold_nodes; lia).
      destruct (rotate_right_exact v b r rv cc' (Some (Node lv c' ll rl)) rr
                  Hb2 Hcc')
        as (b' & bb' & E2 & _ & _ & Hb' & Hbb').
      rewrite E2. eexists. split; [reflexivity|]. clear Hb2. unfold_nodes.
      finish_balance.
  - destruct (Z.gtb_spec b 1) as [Hgt|Hle].
    + (* right-heavy *)
      destruct r as [[rv rb rl rr]|]; [|unfold_nodes; lia].
      pose proof Hr as (Hrb & Hrr & Hrl & Hrrr).
      pose proof (oheight_ge rl). pose proof (oheight_ge rr).
      cbn [Node.bf]. destruct (Z.geb_spec rb 0) as [Hge0|Hlt0].
      * (* right-right: one left rotation *)
        destruct (rotate_left_exact v b l rv rb rl rr Hb Hrb)
          as (b' & bb' & E & _ & _ & Hb' & Hbb').
        rewrite E. eexists. split; [reflexivity|]. unfold_nodes.
        finish_balance.
      * (* right-left: rotate the right child right, then this node left *)
        destruct rl as [[lv lb ll lr]|]; [|unfold_nodes; lia].
        pose proof Hrl as (Hlb & Hlr & Hll & Hlrr).
        pose proof (oheight_ge ll). pose proof (oheight_ge lr).
        destruct (rotate_right_exact rv rb rr lv lb ll lr Hrb Hlb)
          as (c' & cc' & E1 & _ & _ & Hc' & Hcc').
        rewrite E1.
        assert (Hb2 : b = oheight (Some (Node lv cc' ll (Some (Node rv c' lr rr))))
                          - oheight l)
          by (unfold_nodes; lia).
        destruct (rotate_left_exact v b l lv cc' ll (Some (Node rv c' lr rr))
                    Hb2 Hcc')
          as (b' & bb' & E2 & _ & _ & Hb' & Hbb').
        rewrite E2. eexists. split; [reflexivity|]. clear Hb2. unfold_nodes.
        finish_balance.
    + eexists. split; [reflexivity|]. unfold_nodes.
      repeat split; auto; try lia.
Qed.

(** ** One level of insertion and deletion

    The four lemmas below describe what a node does once the recursive call
    on a child has returned: it adjusts its own balance factor when the
    signal [g] says the child's height changed, and rebalances. *)

Lemma avl_bf_range n : avl n -> -1 <= Node.bf n <= 1.
Proof. destruct n; simpl; tauto. Qed.

Lemma insert_left_step v b l r c (g : bool) :
  avl (Node v b l r) -> avl c ->
  (g = true /\ Node.height c = oheight l + 1
     /\ (1 <= Node.height c -> Node.bf c <> 0)
   \/ g = false /\ Node.height c = oheight l) ->
  exists n',
    (if g then Node.balance (Node v (b - 1) (Some c) r)
     else Node.balance (Node v b (Some c) r)) = Return n'
    /\ avl n'
    /\ Node.iter n' = Node.iter c ++ v :: oiter r
    /\ (Node.height n' = Node.height (Node v b l r)
          /\ ~ (b = 0 /\ Node.bf n' <> 0)
        \/ Node.height n' = Node.height (Node v b l r) + 1
          /\ b = 0 /\ Node.bf n' <> 0).
Proof.
  intros (Hb & Hrange & Hl & Hr) Hc Hg.
  pose proof (oheight_ge l). pose proof (oheight_ge r).
  pose proof (height_nonneg c).
  destruct (balance_spec v (if g then b - 1 else b) (Some c) r)
    as (n' & E & Havl & Hit & Hcases); auto.
  - destruct Hg as [(-> & ? & ?)|(-> & ?)]; unfold_nodes; lia.
  - destruct Hg as [(-> & ? & ?)|(-> & ?)]; lia.
  - exists n'. split; [destruct g; exact E|]. repeat split; auto.
    unfold_nodes.
    destruct Hg as [(-> & ? & ?)|(-> & ?)];
      destruct Hcases as [(? & ->)|[?|[?|[?|?]]]]; unfold_nodes; lia.
Qed.

Lemma insert_right_step v b l r c (g : bool) :
  avl (Node v b l r) -> avl c ->
  (g = true /\ Node.height c = oheight r + 1
     /\ (1 <= Node.height c -> Node.bf c <> 0)
   \/ g = false /\ Node.height c = oheight r) ->
  exists n',
    (if g then Node.balance (Node v (b + 1) l (Some c))
     else Node.balance (Node v b l (Some c))) = Return n'
    /\ avl n'
    /\ Node.iter n' = oiter l ++ v :: Node.iter c
    /\ (Node.height n' = Node.height (Node v b l r)
          /\ ~ (b = 0 /\ Node.bf n' <> 0)
        \/ Node.height n' = Node.height (Node v b l r) + 1
          /\ b = 0 /\ Node.bf n' <> 0).
Proof.
  intros (Hb & Hrange & Hl & Hr) Hc Hg.
  pose proof (oheight_ge l). pose proof (oheight_ge r).
  pose proof (height_nonneg c).
  destruct (balance_spec v (if g then b + 1 else b) l (Some c))
    as (n' & E & Havl & Hit & Hcases); auto.
  - destruct Hg as [(-> & ? & ?)|(-> & ?)]; unfold_nodes; lia.
  - destruct Hg as [(-> & ? & ?)|(-> & ?)]; lia.
  - exists n'. split; [destruct g; exact E|]. repeat split; auto.
    unfold_nodes.
    destruct Hg as [(-> & ? & ?)|(-> & ?)];
      destruct Hcases as [(? & ->)|[?|[?|[?|?]]]]; unfold_nodes; lia.
Qed.

Lemma delete_left_step v v' b l r c (g : bool) :
  avl (Node v b l r) -> present avl c ->
  (g = true /\ oheight c = oheight l - 1
   \/ g = false /\ oheight c = oheight l) ->
  exists n',
    (if g then Node.balance (Node v' (b + 1) c r)
     else Node.balance (Node v' b c r)) = Return n'
    /\ avl n'
    /\ Node.iter n' = oiter c ++ v' :: oiter r
    /\ (Node.height n' = Node.height (Node v b l r) - 1
          /\ Z.abs b = 1 /\ Node.bf n' = 0
        \/ Node.height n' = Node.height (Node v b l r)
          /\ ~ (Z.abs b = 1 /\ Node.bf n' = 0)).
Proof.
  intros (Hb & Hrange & Hl & Hr) Hc Hg.
  pose proof (oheight_ge l). pose proof (oheight_ge r).
  pose proof (oheight_ge c).
  destruct (balance_spec v' (if g then b + 1 else b) c r)
    as (n' & E & Havl & Hit & Hcases); auto.
  - destruct Hg as [(-> & ?)|(-> & ?)]; lia.
  - destruct Hg as [(-> & ?)|(-> & ?)]; lia.
  - exists n'. split; [destruct g; exact E|]. repeat split; auto.
    unfold_nodes.
    destruct Hg as [(-> & ?)|(-> & ?)];
      destruct Hcases as [(? & ->)|[?|[?|[?|?]]]]; unfold_nodes; lia.
Qed.

Lemma delete_right_step v b l r c (g : bool) :
  avl (Node v b l r) -> present avl c ->
  (g = true /\ oheight c = oheight r - 1
   \/ g = false /\ oheight c = oheight r) ->
  exists n',
    (if g then Node.balance (Node v (b - 1) l c)
     else Node.balance (Node v b l c)) = Return n'
    /\ avl n'
    /\ Node.iter n' = oiter l ++ v :: oiter c
    /\ (Node.height n' = Node.height (Node v b l r) - 1
          /\ Z.abs b = 1 /\ Node.bf n' = 0
        \/ Node.height n' = Node.height (Node v b l r)
          /\ ~ (Z.abs b = 1 /\ Node.bf n' = 0)).
Proof.
  intros (Hb & Hrange & Hl & Hr) Hc Hg.
  pose proof (oheight_ge l). pose proof (oheight_ge r).
  pose proof (oheight_ge c).
  destruct (balance_spec v (if g then b - 1 else b) l c)
    as (n' & E & Havl & Hit & Hcases); auto.
  - destruct Hg as [(-> & ?)|(-> & ?)]; lia.
  - destruct Hg as [(-> & ?)|(-> & ?)]; lia.
  - exists n'. split; [destruct g; exact E|]. repeat split; auto.
    unfold_nodes.
    destruct Hg as [(-> & ?)|(-> & ?)];
      destruct Hcases as [(? & ->)|[?|[?|[?|?]]]]; unfold_nodes; lia.
Qed.

(** ** Ascending lists *)

Lemma ascending_app_iff l1 x l2 :
  ascending (l1 ++ x :: l2) <->
  ascending l1 /\ ascending l2
  /\ (forall y, In y l1 -> y < x) /\ (forall y, In y l2 -> x < y).
Proof.
  unfold ascending. induction l1 as [|a l1 IH]; simpl.
  - split.
    + intros H. inversion H as [|? ? Hs Hf]; subst.
      rewrite Forall_forall in Hf.
      repeat split; auto using SSorted_nil; contradiction.
    + intros (_ & Hs & _ & Hf). constructor; auto.
      rewrite Forall_forall. auto.
  - split.
    + intros H. inversion H as [|? ? Hs Hf]; subst.
      apply IH in Hs. destruct Hs as (H1 & H2 & H3 & H4).
      rewrite Forall_forall in Hf.
      repeat split; auto.
      * constructor; auto. rewrite Forall_forall. intros y Hy.
        apply Hf, in_or_app; auto.
      * intros y [->|Hy]; auto. apply Hf, in_or_app. right. left. reflexivity.
    + intros (H1 & H2 & H3 & H4).
      inversion H1 as [|? ? Hs Hf]; subst.
      rewrite Forall_forall in Hf.
      constructor.
      * apply IH. repeat split; auto.
      * rewrite Forall_forall. intros y Hy.
        apply in_app_or in Hy. destruct Hy as [Hy|[<-|Hy]]; auto.
        specialize (H3 a (or_introl eq_refl)). specialize (H4 y Hy). lia.
Qed.

Lemma ascending_NoDup l : ascending l -> NoDup l.
Proof.
  unfold ascending. induction 1 as [|a l Hs IH Hf]; constructor; auto.
  rewrite Forall_forall in Hf. intros Hin. specialize (Hf a Hin). lia.
Qed.

(** Two ascending lists with the same members are the same list. *)
Lemma ascending_ext l1 l2 :
  ascending l1 -> ascending l2 ->
  (forall x, In x l1 <-> In x l2) -> l1 = l2.
Proof.
  unfold ascending. intros H1. revert l2.
  induction H1 as [|a l1 Hs1 IH Hf1]; intros l2 H2 Hmem.
  - destruct l2 as [|b l2]; auto.
    exfalso. apply (Hmem b). left. reflexivity.
  - destruct H2 as [|b l2 Hs2 Hf2].
    + exfalso. apply (Hmem a). left. reflexivity.
    + rewrite Forall_forall in Hf1, Hf2.
      assert (a = b).
      { destruct (proj1 (Hmem a) (or_introl eq_refl)) as [|Ha]; auto.
        destruct (proj2 (Hmem b) (or_introl eq_refl)) as [|Hb]; auto.
        specialize (Hf1 b Hb). specialize (Hf2 a Ha). lia. }
      subst b. f_equal. apply IH; auto.
      intros x. split; intros Hx.
      * destruct (proj1 (Hmem x) (or_intror Hx)) as [->|]; auto.
        specialize (Hf1 _ Hx). lia.
      * destruct (proj2 (Hmem x) (or_intror Hx)) as [->|]; auto.
        specialize (Hf2 _ Hx). lia.
Qed.

(** The order invariant, stated node by node, is the ascending in-order
    sequence. *)
Lemma ordered_ascending n : ordered n <-> ascending (Node.iter n).
Proof.
  induction n as [v b l r IHl IHr] using node_induction.
  rewrite iter_Node, ascending_app_iff. cbn [ordered].
  rewrite !Forall_forall.
  assert (Hl : present ordered l <-> ascending (oiter l)).
  { destruct l; cbn [present oiter] in *; [exact IHl|].
    split; [constructor|trivial]. }
  assert (Hr : present ordered r <-> ascending (oiter r)).
  { destruct r; cbn [present oiter] in *; [exact IHr|].
    split; [constructor|trivial]. }
  rewrite Hl, Hr. tauto.
Qed.

(** ** The balance-factor signals *)

Lemma grew_spec old c :
  -1 <= old <= 1 -> -1 <= Node.bf c <= 1 ->
  Node.grew old c = true <-> old = 0 /\ Node.bf c <> 0.
Proof.
  intros Ho Hc. unfold Node.grew.
  rewrite orb_true_iff, !andb_true_iff.
  rewrite Z.leb_le, Z.geb_le, Z.ltb_lt, Z.gtb_lt. lia.
Qed.

Lemma shrunk_spec old c :
  -1 <= Node.bf c <= 1 ->
  Node.shrunk old (Some c) = true <-> Z.abs old = 1 /\ Node.bf c = 0.
Proof.
  intros Hc. unfold Node.shrunk.
  rewrite andb_true_iff, !Z.eqb_eq. tauto.
Qed.

(** ** Insertion into a subtree *)

Ltac solve_in :=
  repeat rewrite in_app_iff in *; simpl In in *; intuition (subst; auto; try lia).

(** [Node.insert] on a subtree that satisfies both invariants: a value that
    is present raises [RuntimeError] and leaves the subtree as it was; a new
    value is added, both invariants are kept, and the height grows by one
    exactly when the root's balance factor leaves 0. *)
Lemma insert_spec n val :
  avl n -> ascending (Node.iter n) ->
  (In val (Node.iter n) -> Node.insert n val = Raise RuntimeError n)
  /\ (~ In val (Node.iter n) ->
      exists n',
        Node.insert n val = Return n'
        /\ avl n' /\ ascending (Node.iter n')
        /\ (forall x, In x (Node.iter n') <-> x = val \/ In x (Node.iter n))
        /\ (Node.height n' = Node.height n
              /\ ~ (Node.bf n = 0 /\ Node.bf n' <> 0)
            \/ Node.height n' = Node.height n + 1
              /\ Node.bf n = 0 /\ Node.bf n' <> 0)).
Proof.
  induction n as [v b l r IHl IHr] using node_induction. intros Havl Hasc.
  pose proof Havl as (Hb & Hrange & Hl & Hr).
  rewrite iter_Node in *.
  pose proof (proj1 (ascending_app_iff _ _ _) Hasc) as (Al & Ar & Ll & Lr).
  cbn [Node.insert Node.bf].
  destruct (Z.eqb_spec val v) as [->|Hne].
  { split; [reflexivity|]. intros Hn. exfalso. apply Hn. solve_in. }
  destruct (Z.ltb_spec val v) as [Hlt|Hge].
  - (* the value belongs in the left subtree *)
    assert (Hside : In val (oiter l ++ v :: oiter r) <-> In val (oiter l)).
    { split; [|solve_in]. intros Hin. apply in_app_or in Hin.
      destruct Hin as [|[|Hin]]; auto; [lia|]. specialize (Lr _ Hin). lia. }
    rewrite Hside.
    destruct l as [ln|]; cbn [oiter present] in *.
    + destruct (IHl Hl Al) as (IHin & IHout). split.
      * intros Hin. rewrite (IHin Hin). reflexivity.
      * intros Hout. destruct (IHout Hout) as (c & E & Hc & Ac & Mc & Hh).
        rewrite E.
        destruct (insert_left_step v b (Some ln) r c
                    (Node.grew (Node.bf ln) c) Havl Hc)
          as (n' & E' & Hn' & It & Hh').
        { pose proof (grew_spec (Node.bf ln) c
                        (avl_bf_range _ Hl) (avl_bf_range _ Hc)) as G.
          cbn [oheight].
          destruct (Node.grew (Node.bf ln) c); [left|right].
          - destruct (proj1 G eq_refl). intuition lia.
          - destruct Hh as [?|(? & ? & ?)]; [tauto|].
            assert (false = true) by (apply G; auto). discriminate. }
        exists n'. split; [exact E'|]. split; [exact Hn'|].
        rewrite It. split; [|split; [|exact Hh']].
        -- apply ascending_app_iff. repeat split; auto.
           intros y Hy. apply Mc in Hy. destruct Hy as [->|Hy]; auto.
        -- intros x. rewrite !in_app_iff, Mc. tauto.
    + split; [contradiction|]. intros _.
      destruct (insert_left_step v b None r (Node val 0 None None) true Havl)
        as (n' & E' & Hn' & It & Hh').
      { simpl. lia. }
      { left. unfold_nodes. repeat split; lia. }
      exists n'. split; [exact E'|]. split; [exact Hn'|].
      rewrite It. split; [|split; [|exact Hh']].
      * apply ascending_app_iff. repeat split; auto.
        -- repeat constructor.
        -- intros y [<-|[]]. exact Hlt.
      * intros x. simpl. intuition auto.
  - destruct (Z.gtb_spec val v) as [Hgt|Hle]; [|lia].
    (* the value belongs in the right subtree *)
    assert (Hside : In val (oiter l ++ v :: oiter r) <-> In val (oiter r)).
    { split; [|solve_in]. intros Hin. apply in_app_or in Hin.
      destruct Hin as [Hin|[|]]; auto; [|lia]. specialize (Ll _ Hin). lia. }
    rewrite Hside.
    destruct r as [rn|]; cbn [oiter present] in *.
    + destruct (IHr Hr Ar) as (IHin & IHout). split.
      * intros Hin. rewrite (IHin Hin). reflexivity.
      * intros Hout. destruct (IHout Hout) as (c & E & Hc & Ac & Mc & Hh).
        rewrite E.
        destruct (insert_right_step v b l (Some rn) c
                    (Node.grew (Node.bf rn) c) Havl Hc)
          as (n' & E' & Hn' & It & Hh').
        { pose proof (grew_spec (Node.bf rn) c
                        (avl_bf_range _ Hr) (avl_bf_range _ Hc)) as G.
          cbn [oheight].
          destruct (Node.grew (Node.bf rn) c); [left|right].
          - destruct (proj1 G eq_refl). intuition lia.
          - destruct Hh as [?|(? & ? & ?)]; [tauto|].
            assert (false = true) by (apply G; auto). discriminate. }
        exists n'. split; [exact E'|]. split; [exact Hn'|].
        rewrite It. split; [|split; [|exact Hh']].
        -- apply ascending_app_iff. repeat split; auto.
           intros y Hy. apply Mc in Hy. destruct Hy as [->|Hy]; auto.
        -- intros x. rewrite !in_app_iff. simpl. rewrite Mc. tauto.
    + split; [contradiction|]. intros _.
      destruct (insert_right_step v b l None (Node val 0 None None) true Havl)
        as (n' & E' & Hn' & It & Hh').
      { simpl. lia. }
      { left. unfold_nodes. repeat split; lia. }
      exists n'. split; [exact E'|]. split; [exact Hn'|].
      rewrite It. split; [|split; [|exact Hh']].
      * apply ascending_app_iff. repeat split; auto.
        -- repeat constructor.
        -- intros y [<-|[]]. exact Hgt.
      * intros x. rewrite !in_app_iff. simpl. intuition auto.
Qed.

(** ** Deletion from a subtree *)

Lemma find_max_spec n :
  ascending (Node.iter n) ->
  In (Node.find_max n) (Node.iter n)
  /\ forall y, In y (Node.iter n) -> y <= Node.find_max n.
Proof.
  induction n as [v b l r IHl IHr] using node_induction. intros Hasc.
  rewrite iter_Node in *.
  apply ascending_app_iff in Hasc. destruct Hasc as (Al & Ar & Ll & Lr).
  cbn [Node.find_max]. destruct r as [rn|]; cbn [oiter present] in *.
  - destruct (IHr Ar) as (Hin & Hmax). split.
    + apply in_or_app. right. right. exact Hin.
    + intros y Hy. apply in_app_or in Hy.
      specialize (Lr _ Hin). destruct Hy as [Hy|[<-|Hy]]; auto; [|lia].
      specialize (Ll _ Hy). lia.
  - split.
    + apply in_or_app. right. left. reflexivity.
    + intros y Hy. apply in_app_or in Hy.
      destruct Hy as [Hy|[<-|[]]]; [|lia]. specialize (Ll _ Hy). lia.
Qed.

Lemma last_app_nonempty (l1 l2 : list Z) d :
  l2 <> [] -> last (l1 ++ l2) d = last l2 d.
Proof.
  intros Hne. induction l1 as [|a l1 IH]; [reflexivity|].
  simpl. rewrite IH. destruct (l1 ++ l2) eqn:E; [|reflexivity].
  apply app_eq_nil in E. tauto.
Qed.

Lemma iter_nonempty n : Node.iter n <> [].
Proof.
  destruct n as [v b l r]. rewrite iter_Node.
  destruct (oiter l); discriminate.
Qed.

(** The maximum of a subtree is the last value of its in-order sequence. *)
Lemma find_max_last n d : Node.find_max n = last (Node.iter n) d.
Proof.
  revert d. induction n as [v b l r IHl IHr] using node_induction. intros d.
  rewrite iter_Node. cbn [Node.find_max].
  destruct r as [rn|]; cbn [oiter present] in *.
  - rewrite (IHr d).
    change (oiter l ++ v :: Node.iter rn) with (oiter l ++ [v] ++ Node.iter rn).
    rewrite app_assoc. symmetry. apply last_app_nonempty, iter_nonempty.
  - rewrite last_app_nonempty; [reflexivity|discriminate].
Qed.

Lemma avl_height0 c : avl c -> Node.height c = 0 -> Node.bf c = 0.
Proof.
  destruct c as [v b l r]. intros (Hb & _). rewrite height_Node. cbn [Node.bf].
  pose proof (oheight_ge l). pose proof (oheight_ge r). lia.
Qed.

(** [Node.delete] on a subtree that satisfies both invariants: an absent
    value raises [RuntimeError] and leaves the subtree as it was; a present
    value is removed, both invariants are kept, and the height drops by one
    exactly when the parent's test [shrunk] on the old balance factor and
    the returned slot says so. *)
Lemma delete_spec n :
  forall val, avl n -> ascending (Node.iter n) ->
  (~ In val (Node.iter n) -> Node.delete n val = Raise RuntimeError n)
  /\ (In val (Node.iter n) ->
      exists r',
        Node.delete n val = Return r'
        /\ present avl r' /\ ascending (oiter r')
        /\ (forall x, In x (oiter r') <-> In x (Node.iter n) /\ x <> val)
        /\ (Node.shrunk (Node.bf n) r' = true
              /\ oheight r' = Node.height n - 1
            \/ Node.shrunk (Node.bf n) r' = false
              /\ oheight r' = Node.height n)).
Proof.
  induction n as [v b l r IHl IHr] using node_induction. intros val Havl Hasc.
  pose proof Havl as (Hb & Hrange & Hl & Hr).
  rewrite iter_Node in *.
  pose proof (proj1 (ascending_app_iff _ _ _) Hasc) as (Al & Ar & Ll & Lr).
  cbn [Node.delete Node.bf].
  assert (Hfinish : forall n',
    avl n' ->
    (Node.height n' = Node.height (Node v b l r) - 1
       /\ Z.abs b = 1 /\ Node.bf n' = 0
     \/ Node.height n' = Node.height (Node v b l r)
       /\ ~ (Z.abs b = 1 /\ Node.bf n' = 0)) ->
    Node.shrunk b (Some n') = true
      /\ oheight (Some n') = Node.height (Node v b l r) - 1
    \/ Node.shrunk b (Some n') = false
      /\ oheight (Some n') = Node.height (Node v b l r)).
  { intros n' Hn' Hh.
    pose proof (shrunk_spec b n' (avl_bf_range _ Hn')) as S.
    cbn [oheight]. destruct (Node.shrunk b (Some n')).
    - left. destruct (proj1 S eq_refl). intuition lia.
    - right. destruct Hh as [(? & ? & ?)|(? & ?)]; auto.
      assert (false = true) by (apply S; auto). discriminate. }
  destruct (Z.ltb_spec val v) as [Hlt|Hge].
  - (* the value would be in the left subtree *)
    assert (Hside : In val (oiter l ++ v :: oiter r) <-> In val (oiter l)).
    { split; [|solve_in]. intros Hin. apply in_app_or in Hin.
      destruct Hin as [|[|Hin]]; auto; [lia|]. specialize (Lr _ Hin). lia. }
    rewrite Hside.
    destruct l as [ln|]; cbn [oiter present] in *.
    + destruct (IHl val Hl Al) as (IHout & IHin). split.
      * intros Hout. rewrite (IHout Hout). reflexivity.
      * intros Hin. destruct (IHin Hin) as (c & E & Hc & Ac & Mc & Hh).
        rewrite E.
        destruct (delete_left_step v v b (Some ln) r c
                    (Node.shrunk (Node.bf ln) c) Havl Hc)
          as (n' & E' & Hn' & It & Hh').
        { cbn [oheight]. destruct Hh as [(-> & ?)|(-> & ?)]; auto. }
        exists (Some n'). split.
        { unfold Node.balanced.
          destruct (Node.shrunk (Node.bf ln) c); rewrite E'; reflexivity. }
        split; [exact Hn'|]. cbn [oiter]. rewrite It.
        split; [|split; [|apply Hfinish; auto]].
        -- apply ascending_app_iff. repeat split; auto.
           intros y Hy. apply Mc in Hy. apply Ll, Hy.
        -- intros x. rewrite !in_app_iff, Mc. simpl.
           split; [|tauto]. intros [?|[<-|Hx]]; [tauto|split; [auto|lia]|].
           specialize (Lr _ Hx). split; [auto|lia].
    + split; [reflexivity|contradiction].
  - destruct (Z.gtb_spec val v) as [Hgt|Hle].
    + (* the value would be in the right subtree *)
      assert (Hside : In val (oiter l ++ v :: oiter r) <-> In val (oiter r)).
      { split; [|solve_in]. intros Hin. apply in_app_or in Hin.
        destruct Hin as [Hin|[|]]; auto; [|lia]. specialize (Ll _ Hin). lia. }
      rewrite Hside.
      destruct r as [rn|]; cbn [oiter present] in *.
      * destruct (IHr val Hr Ar) as (IHout & IHin). split.
        -- intros Hout. rewrite (IHout Hout). reflexivity.
        -- intros Hin. destruct (IHin Hin) as (c & E & Hc & Ac & Mc & Hh).
           rewrite E.
           destruct (delete_right_step v b l (Some rn) c
                       (Node.shrunk (Node.bf rn) c) Havl Hc)
             as (n' & E' & Hn' & It & Hh').
           { cbn [oheight]. destruct Hh as [(-> & ?)|(-> & ?)]; auto. }
           exists (Some n'). split.
           { unfold Node.balanced.
             destruct (Node.shrunk (Node.bf rn) c); rewrite E'; reflexivity. }
           split; [exact Hn'|]. cbn [oiter]. rewrite It.
           split; [|split; [|apply Hfinish; auto]].
           ++ apply ascending_app_iff. repeat split; auto.
              intros y Hy. apply Mc in Hy. apply Lr, Hy.
           ++ intros x. rewrite !in_app_iff. simpl. rewrite Mc.
              split; [|tauto]. intros [Hx|[<-|?]]; [|split; [auto|lia]|tauto].
              specialize (Ll _ Hx). split; [auto|lia].
      * split; [reflexivity|contradiction].
    + (* the value is in this node *)
      assert (val = v) by lia. subst val.
      split. { intros Hn. exfalso. apply Hn. solve_in. }
      intros _.
      destruct l as [ln|]; cbn [oiter present] in *.
      * destruct r as [rn|]; cbn [oiter present] in *.
        -- (* two children: the predecessor takes this node's place *)
           destruct (find_max_spec ln Al) as (Min & Mmax).
           destruct (IHl (Node.find_max ln) Hl Al) as (_ & IHin).
           destruct (IHin Min) as (c & E & Hc & Ac & Mc & Hh).
           rewrite E.
           destruct (delete_left_step v (Node.find_max ln) b (Some ln)
                       (Some rn) c (Node.shrunk (Node.bf ln) c) Havl Hc)
             as (n' & E' & Hn' & It & Hh').
           { cbn [oheight]. destruct Hh as [(-> & ?)|(-> & ?)]; auto. }
           exists (Some n'). split.
           { unfold Node.balanced.
             destruct (Node.shrunk (Node.bf ln) c); rewrite E'; reflexivity. }
           split; [exact Hn'|]. cbn [oiter]. rewrite It.
           pose proof (Ll _ Min) as Mlt.
           split; [|split; [|apply Hfinish; auto]].
           ++ apply ascending_app_iff. repeat split; auto.
              ** intros y Hy. apply Mc in Hy. destruct Hy as (Hy & Hne).
                 specialize (Mmax _ Hy). lia.
              ** intros y Hy. specialize (Lr _ Hy). lia.
           ++ intros x. rewrite !in_app_iff. simpl. rewrite Mc. split.
              ** intros [(Hx & _)|[<-|Hx]].
                 --- specialize (Ll _ Hx). split; [auto|lia].
                 --- split; [auto|lia].
                 --- specialize (Lr _ Hx). split; [auto|lia].
              ** intros ([Hx|[Hx|Hx]] & Hne); [|congruence|auto].
                 destruct (Z.eq_dec x (Node.find_max ln)); auto.
        -- (* only a left child *)
           exists (Some ln). split; [reflexivity|]. split; [exact Hl|].
           split; [exact Al|]. split.
           ++ intros x. rewrite in_app_iff. simpl. split.
              ** intros Hx. specialize (Ll _ Hx). split; [auto|lia].
              ** intros ([?|[?|[]]] & ?); [auto|congruence].
           ++ left. pose proof (height_nonneg ln). unfold_nodes.
              assert (Node.height ln = 0) by lia.
              pose proof (avl_height0 ln Hl). unfold Node.shrunk.
              rewrite andb_true_iff, !Z.eqb_eq. lia.
      * (* no left child *)
        exists r. split; [reflexivity|]. split; [exact Hr|].
        split; [exact Ar|]. split.
        -- intros x. simpl. split.
           ++ intros Hx. specialize (Lr _ Hx). split; [auto|lia].
           ++ intros ([?|?] & ?); [congruence|auto].
        -- left. destruct r as [rn|]; [|split; reflexivity].
           pose proof (height_nonneg rn). unfold_nodes.
           assert (Node.height rn = 0) by lia.
           pose proof (avl_height0 rn Hr). unfold Node.shrunk.
           rewrite andb_true_iff, !Z.eqb_eq. lia.
Qed.

(** ** The container *)

Lemma BSTree_insert_spec self v :
  invariants self ->
  (In v (BSTree.iter self) -> BSTree.insert self (Some v) = (false, self))
  /\ (~ In v (BSTree.iter self) ->
      exists self',
        BSTree.insert self (Some v) = (true, self')
        /\ invariants self'
        /\ forall x, In x (BSTree.iter self') <-> x = v \/ In x (BSTree.iter self)).
Proof.
  destruct self as [[n|]]; unfold invariants, BSTree.insert, BSTree.iter;
    cbn [root present]; intros (Havl & Hasc).
  - destruct (insert_spec n v Havl Hasc) as (Hin & Hout). split.
    + intros H. rewrite (Hin H). reflexivity.
    + intros H. destruct (Hout H) as (n' & E & Hn' & An' & Mn' & _).
      rewrite E. eexists. split; [reflexivity|]. cbn [root present]. auto.
  - split; [contradiction|]. intros _. eexists. split; [reflexivity|].
    cbn [root present avl Node.iter]. repeat split; auto; try lia.
    + repeat constructor.
    + simpl. intuition auto.
    + simpl. intuition auto.
Qed.

Lemma BSTree_delete_spec self v :
  invariants self ->
  (~ In v (BSTree.iter self) -> BSTree.delete self (Some v) = (false, self))
  /\ (In v (BSTree.iter self) ->
      exists self',
        BSTree.delete self (Some v) = (true, self')
        /\ invariants self'
        /\ forall x, In x (BSTree.iter self') <-> In x (BSTree.iter self) /\ x <> v).
Proof.
  destruct self as [[n|]]; unfold invariants, BSTree.delete, BSTree.iter;
    cbn [root present]; intros (Havl & Hasc).
  - destruct (delete_spec n v Havl Hasc) as (Hout & Hin). split.
    + intros H. rewrite (Hout H). reflexivity.
    + intros H. destruct (Hin H) as (r' & E & Hr' & Ar' & Mr' & _).
      rewrite E. eexists. split; [reflexivity|]. cbn [root]. auto.
  - split; [reflexivity|contradiction].
Qed.

Lemma invariants_empty : invariants (mkBSTree None).
Proof. split; [exact I|constructor]. Qed.

Lemma invariants_insert self val :
  invariants self -> invariants (snd (BSTree.insert self val)).
Proof.
  intros Hinv. destruct val as [v|]; [|exact Hinv].
  destruct (BSTree_insert_spec self v Hinv) as (Hin & Hout).
  destruct (in_dec Z.eq_dec v (BSTree.iter self)) as [H|H].
  - rewrite (Hin H). exact Hinv.
  - destruct (Hout H) as (self' & E & Hinv' & _). rewrite E. exact Hinv'.
Qed.

Lemma invariants_delete self val :
  invariants self -> invariants (snd (BSTree.delete self val)).
Proof.
  intros Hinv. destruct val as [v|]; [|exact Hinv].
  destruct (BSTree_delete_spec self v Hinv) as (Hout & Hin).
  destruct (in_dec Z.eq_dec v (BSTree.iter self)) as [H|H].
  - destruct (Hin H) as (self' & E & Hinv' & _). rewrite E. exact Hinv'.
  - rewrite (Hout H). exact Hinv.
Qed.

(** Every reachable tree satisfies both invariants. *)
Lemma reachable_invariants self : reachable self -> invariants self.
Proof.
  induction 1 as [|self val _ IH|self val _ IH].
  - exact invariants_empty.
  - apply invariants_insert, IH.
  - apply invariants_delete, IH.
Qed.

(** What a run of discarded [insert] calls leaves behind. *)
Lemma insert_all_spec vals : forall self,
  invariants self ->
  let self' := fold_left (fun s val => snd (BSTree.insert s val)) vals self in
  invariants self'
  /\ forall x, In x (BSTree.iter self')
               <-> In (Some x) vals \/ In x (BSTree.iter self).
Proof.
  induction vals as [|val vals IH]; intros self Hinv; cbn zeta.
  - split; [exact Hinv|]. simpl. tauto.
  - cbn [fold_left].
    destruct (IH _ (invariants_insert self val Hinv)) as (Hinv' & Hmem).
    split; [exact Hinv'|]. intros x. rewrite Hmem. clear Hmem IH.
    destruct val as [v|].
    + destruct (BSTree_insert_spec self v Hinv) as (Hin & Hout).
      destruct (in_dec Z.eq_dec v (BSTree.iter self)) as [H|H].
      * rewrite (Hin H). cbn [snd]. simpl.
        split; [tauto|]. intros [[E|?]|?]; auto.
        injection E as ->. auto.
      * destruct (Hout H) as (self' & E & _ & M). rewrite E. cbn [snd].
        rewrite M. simpl. split.
        -- intros [?|[->|?]]; auto.
        -- intros [[E'|?]|?]; auto. injection E' as ->. auto.
    + cbn [BSTree.insert snd]. simpl.
      split; [tauto|]. intros [[?|?]|?]; auto. discriminate.
Qed.

Lemma reachable_insert_all vals : forall self,
  reachable self ->
  reachable (fold_left (fun s val => snd (BSTree.insert s val)) vals self).
Proof.
  induction vals as [|val vals IH]; intros self Hr; [exact Hr|].
  apply IH. constructor. exact Hr.
Qed.

Lemma reachable_init iterable : reachable (BSTree.init iterable).
Proof.
  destruct iterable as [vals|]; [|constructor].
  apply reachable_insert_all. exact reach_empty.
Qed.

Lemma perform_spec self c held :
  invariants self ->
  (forall x, In x (BSTree.iter self) <-> held x) ->
  invariants (perform self c)
  /\ forall x, In x (BSTree.iter (perform self c)) <-> spec_step held c x.
Proof.
  intros Hinv Hheld. destruct c as [[v|]|[v|]]; cbn [perform spec_step];
    try (split; [exact Hinv|exact Hheld]).
  - split; [apply invariants_insert, Hinv|]. intros x.
    destruct (BSTree_insert_spec self v Hinv) as (Hin & Hout).
    destruct (in_dec Z.eq_dec v (BSTree.iter self)) as [H|H].
    + rewrite (Hin H). cbn [snd]. rewrite <- Hheld. split; [tauto|].
      intros [->|?]; assumption.
    + destruct (Hout H) as (s' & E & _ & M). rewrite E. cbn [snd].
      rewrite M, Hheld. tauto.
  - split; [apply invariants_delete, Hinv|]. intros x.
    destruct (BSTree_delete_spec self v Hinv) as (Hout & Hin).
    destruct (in_dec Z.eq_dec v (BSTree.iter self)) as [H|H].
    + destruct (Hin H) as (s' & E & _ & M). rewrite E. cbn [snd].
      rewrite M, Hheld. tauto.
    + rewrite (Hout H). cbn [snd]. rewrite <- Hheld. split; [|tauto].
      intros Hx. split; [exact Hx|]. intros ->. contradiction.
Qed.

Lemma run_spec calls : forall self held,
  invariants self ->
  (forall x, In x (BSTree.iter self) <-> held x) ->
  forall x, In x (BSTree.iter (fold_left perform calls self))
            <-> fold_left spec_step calls held x.
Proof.
  induction calls as [|c calls IH]; intros self held Hinv Hheld; [exact Hheld|].
  cbn [fold_left]. destruct (perform_spec self c held Hinv Hheld) as (Hinv' & M).
  apply IH; assumption.
Qed.

Lemma reachable_run calls : reachable (run calls).
Proof.
  unfold run. generalize (BSTree.init None), reach_empty.
  induction calls as [|c calls IH]; intros self Hr; [exact Hr|].
  cbn [fold_left]. apply IH. destruct c; constructor; exact Hr.
Qed.

Lemma reachable_setitem self i val :
  reachable self -> reachable (snd (BSTree.setitem self i val)).
Proof.
  intros Hr. unfold BSTree.setitem.
  destruct (BSTree.getitem self i); [|exact Hr].
  cbn [snd]. apply reach_insert, reach_delete, Hr.
Qed.

Lemma index_loop_spec val vals : forall i,
  (~ In val vals -> BSTree.index_loop val i vals = Exn ValueError)
  /\ (In val vals ->
      exists k, BSTree.index_loop val i vals = Ok (i + Z.of_nat k)
                /\ nth_error vals k = Some val).
Proof.
  induction vals as [|a vals IH]; intros i; cbn [BSTree.index_loop].
  - split; [reflexivity|contradiction].
  - destruct (Z.eqb_spec a val) as [->|Hne].
    + split; [intros H; exfalso; apply H; left; reflexivity|].
      intros _. exists 0%nat. rewrite Z.add_0_r. split; reflexivity.
    + destruct (IH (i + 1)) as (Hout & Hin). split.
      * intros H. apply Hout. intros Hv. apply H. right. exact Hv.
      * intros [?|Hv]; [contradiction|].
        destruct (Hin Hv) as (k & E & Hk). exists (S k). rewrite E.
        split; [f_equal; lia|exact Hk].
Qed.

(** * The properties of the specification *)

Lemma in_map_Some (x : Z) vals : In (Some x) (map Some vals) <-> In x vals.
Proof.
  rewrite in_map_iff. split.
  - intros (y & E & Hy). injection E as ->. exact Hy.
  - intros H. exists x. auto.
Qed.

Lemma init_spec vals :
  invariants (BSTree.init (Some vals))
  /\ forall x, In x (BSTree.iter (BSTree.init (Some vals))) <-> In (Some x) vals.
Proof.
  destruct (insert_all_spec vals (mkBSTree None) invariants_empty) as (Hinv & M).
  split; [exact Hinv|]. intros x. unfold BSTree.init. rewrite M. simpl. tauto.
Qed.

(** C1. A tree built from pairwise-distinct values, inserted in whatever
    order the list gives them, iterates in strictly ascending order over
    exactly those values (so every order of insertion gives the same
    iteration); and the forward in-order iteration of any tree reached by
    inserts and deletes is strictly ascending, over exactly the values the
    calls made so far leave in the set. *)
Theorem C1_inorder_ascending :
  (forall vals : list Z,
      NoDup vals ->
      let self := BSTree.init (Some (map Some vals)) in
      ascending (BSTree.iter self) /\ Permutation vals (BSTree.iter self))
  /\ (forall vals vals' : list Z,
      Permutation vals vals' ->
      BSTree.iter (BSTree.init (Some (map Some vals')))
      = BSTree.iter (BSTree.init (Some (map Some vals))))
  /\ (forall self, reachable self -> ascending (BSTree.iter self))
  /\ (forall calls,
      reachable (run calls)
      /\ ascending (BSTree.iter (run calls))
      /\ forall x, In x (BSTree.iter (run calls)) <-> spec_values calls x).
Proof.
  split; [|split; [|split]].
  - intros vals Hnd self.
    destruct (init_spec (map Some vals)) as ((_ & Hasc) & M). fold self in Hasc, M.
    split; [exact Hasc|].
    apply NoDup_Permutation; auto using ascending_NoDup.
    intros x. rewrite M. symmetry. apply in_map_Some.
  - intros vals vals' Hp.
    destruct (init_spec (map Some vals)) as ((_ & A) & M).
    destruct (init_spec (map Some vals')) as ((_ & A') & M').
    apply ascending_ext; auto.
    intros x. rewrite M, M', !in_map_Some.
    split; apply Permutation_in; [symmetry|]; exact Hp.
  - intros self Hr. apply reachable_invariants, Hr.
  - intros calls. split; [apply reachable_run|].
    split; [apply reachable_invariants, reachable_run|].
    apply run_spec; [exact invariants_empty|]. simpl. tauto.
Qed.

Lemma C1_inorder_ascending_witness :
  (ascending (BSTree.iter (BSTree.init (Some (map Some [3; 1; 2]))))
   /\ Permutation [3; 1; 2] (BSTree.iter (BSTree.init (Some (map Some [3; 1; 2])))))
  /\ ascending
       (BSTree.iter
          (snd (BSTree.delete (BSTree.init (Some [Some 3; Some 1; Some 2]))
                  (Some 1)))).
Proof.
  split.
  - apply (proj1 C1_inorder_ascending [3; 1; 2]).
    repeat constructor; simpl; intuition discriminate.
  - apply (proj1 (proj2 (proj2 C1_inorder_ascending))).
    apply reach_delete, reachable_init.
Defined.

Lemma avl_nodes n :
  avl n ->
  forall m, In m (nodes n) ->
    Node.bf m = oheight (Node.right m) - oheight (Node.left m)
    /\ Z.abs (Node.bf m) <= 1.
Proof.
  induction n as [v b l r IHl IHr] using node_induction.
  intros (Hb & Hrange & Hl & Hr) m Hm. cbn [nodes] in Hm.
  destruct Hm as [<-|Hm].
  - simpl. split; [exact Hb|lia].
  - apply in_app_or in Hm. destruct Hm as [Hm|Hm].
    + destruct l as [ln|]; [|contradiction]. apply (IHl Hl), Hm.
    + destruct r as [rn|]; [|contradiction]. apply (IHr Hr), Hm.
Qed.

(** C2. In every tree reached by completed inserts and deletes, every
    node's stored balance factor is the height of its right subtree minus
    the height of its left subtree as [height] computes them (-1 for an
    absent subtree), and is at most 1 in absolute value. *)
Theorem C2_balance_invariant self :
  reachable self ->
  forall m, In m (match root self with Some n => nodes n | None => [] end) ->
    Node.bf m
      = match Node.right m with Some x => Node.height x | None => -1 end
        - match Node.left m with Some x => Node.height x | None => -1 end
    /\ Z.abs (Node.bf m) <= 1.
Proof.
  intros Hr m Hm. destruct (reachable_invariants self Hr) as (Havl & _).
  destruct (root self) as [n|]; [|contradiction].
  exact (avl_nodes n Havl m Hm).
Qed.

Lemma C2_balance_invariant_witness :
  let m := Node 4 (-1) (Some (Node 3 (-1) (Some (Node 1 0 None None)) None))
             (Some (Node 8 0 None None)) in
  Node.bf m
    = match Node.right m with Some x => Node.height x | None => -1 end
      - match Node.left m with Some x => Node.height x | None => -1 end
  /\ Z.abs (Node.bf m) <= 1.
Proof.
  apply (C2_balance_invariant
           (snd (BSTree.delete
                   (BSTree.init (Some [Some 5; Some 3; Some 8; Some 1; Some 4]))
                   (Some 5)))).
  - apply reach_delete, reachable_init.
  - left. reflexivity.
Defined.

(** [balance] never raises on a node whose balance factor and whose
    children's balance factors are exact. *)
Lemma balance_returns n : bf_exact n -> exists n', Node.balance n = Return n'.
Proof.
  destruct n as [v b l r]. intros (Hb & Hl & Hr).
  pose proof (oheight_ge l). pose proof (oheight_ge r).
  unfold Node.balance.
  destruct (Z.ltb_spec b (-1)).
  - destruct l as [[lv lb ll lr]|]; [|unfold_nodes; lia].
    destruct Hl as (Hlb & _ & _). cbn [Node.bf].
    pose proof (oheight_ge ll).
    destruct (Z.leb_spec lb 0); [eexists; reflexivity|].
    destruct lr as [[rv rb rl rr]|]; [|unfold_nodes; lia].
    eexists. reflexivity.
  - destruct (Z.gtb_spec b 1); [|eexists; reflexivity].
    destruct r as [[rv rb rl rr]|]; [|unfold_nodes; lia].
    destruct Hr as (Hrb & _ & _). cbn [Node.bf].
    pose proof (oheight_ge rr).
    destruct (Z.geb_spec rb 0); [eexists; reflexivity|].
    destruct rl as [[lv lb ll lr]|]; [|unfold_nodes; lia].
    eexists. reflexivity.
Qed.

(** C3. On a node whose stored balance factors are exact, [rotate_left]
    (given a right child) and [rotate_right] (given a left child) return a
    subtree with the same in-order sequence and exact balance factors, the
    two new balance factors being the written min/max expressions of the two
    old ones; without the required child both raise [ValueError] and leave
    the node alone; and [balance] on a node with exact balance factors
    returns, so it never runs into that failure. *)
Theorem C3_rotations :
  (forall v b l bv bb bl br,
      let self := Node v b l (Some (Node bv bb bl br)) in
      bf_exact self ->
      let b' := b - (1 + Z.max bb 0) in
      let bb' := bb - (1 - Z.min b' 0) in
      let res := Node bv bb' (Some (Node v b' l bl)) br in
      Node.rotate_left self = Return res
      /\ Node.iter res = Node.iter self
      /\ bf_exact res)
  /\ (forall v b r bv bb bl br,
      let self := Node v b (Some (Node bv bb bl br)) r in
      bf_exact self ->
      let b' := b + (1 - Z.min bb 0) in
      let bb' := bb + (1 + Z.max b' 0) in
      let res := Node bv bb' bl (Some (Node v b' br r)) in
      Node.rotate_right self = Return res
      /\ Node.iter res = Node.iter self
      /\ bf_exact res)
  /\ (forall v b l,
      Node.rotate_left (Node v b l None) = Raise ValueError (Node v b l None))
  /\ (forall v b r,
      Node.rotate_right (Node v b None r) = Raise ValueError (Node v b None r))
  /\ (forall self, bf_exact self -> exists res, Node.balance self = Return res).
Proof.
  split; [|split; [|split; [|split]]].
  - intros v b l bv bb bl br self (Hb & Hl & Hbb & Hbl & Hbr) b' bb' res.
    destruct (rotate_left_exact v b l bv bb bl br Hb Hbb)
      as (c & cc & E & -> & -> & Hc & Hcc).
    split; [reflexivity|]. split.
    + unfold res, self. rewrite !iter_Node. cbn [oiter]. rewrite !iter_Node.
      rewrite <- app_assoc. reflexivity.
    + unfold res. cbn [bf_exact present]. repeat split; auto.
  - intros v b r bv bb bl br self (Hb & (Hbb & Hbl & Hbr) & Hr) b' bb' res.
    destruct (rotate_right_exact v b r bv bb bl br Hb Hbb)
      as (c & cc & E & -> & -> & Hc & Hcc).
    split; [reflexivity|]. split.
    + unfold res, self. rewrite !iter_Node. cbn [oiter]. rewrite !iter_Node.
      rewrite <- app_assoc. reflexivity.
    + unfold res. cbn [bf_exact present]. repeat split; auto.
  - reflexivity.
  - reflexivity.
  - exact balance_returns.
Qed.

Lemma C3_rotations_witness :
  Node.rotate_left (Node 1 2 None (Some (Node 2 1 None (Some (Node 3 0 None None)))))
    = Return (Node 2 0 (Some (Node 1 0 None None)) (Some (Node 3 0 None None)))
  /\ Node.rotate_right (Node 3 (-2) (Some (Node 2 (-1) (Some (Node 1 0 None None)) None)) None)
    = Return (Node 2 0 (Some (Node 1 0 None None)) (Some (Node 3 0 None None)))
  /\ exists res,
       Node.balance (Node 1 2 None (Some (Node 3 (-1) (Some (Node 2 0 None None)) None)))
         = Return res.
Proof.
  destruct C3_rotations as (HL & HR & _ & _ & HB).
  split; [|split].
  - apply (HL 1 2 None 2 1 None (Some (Node 3 0 None None))).
    simpl. repeat split; reflexivity.
  - apply (HR 3 (-2) None 2 (-1) (Some (Node 1 0 None None)) None).
    simpl. repeat split; reflexivity.
  - apply HB. simpl. repeat split; reflexivity.
Defined.

(** C5. On a reachable tree, [insert] answers [False] for [None] and for a
    value that is present, and [True] otherwise, after which the value is
    present; [delete] answers [False] for [None] and for a value that is
    absent, and [True] otherwise, after which the value is absent; whenever
    the answer is [False] the tree is the very same tree, so a second
    [insert] of the same value changes nothing. *)
Theorem C5_insert_delete_answers self :
  reachable self ->
  BSTree.insert self None = (false, self)
  /\ (forall v, In v (BSTree.iter self) ->
        BSTree.insert self (Some v) = (false, self))
  /\ (forall v, ~ In v (BSTree.iter self) ->
        fst (BSTree.insert self (Some v)) = true
        /\ In v (BSTree.iter (snd (BSTree.insert self (Some v)))))
  /\ BSTree.delete self None = (false, self)
  /\ (forall v, ~ In v (BSTree.iter self) ->
        BSTree.delete self (Some v) = (false, self))
  /\ (forall v, In v (BSTree.iter self) ->
        fst (BSTree.delete self (Some v)) = true
        /\ ~ In v (BSTree.iter (snd (BSTree.delete self (Some v)))))
  /\ (forall val,
        let once := snd (BSTree.insert self val) in
        BSTree.insert once val = (false, once)).
Proof.
  intros Hr. pose proof (reachable_invariants self Hr) as Hinv.
  split; [reflexivity|]. split; [|split; [|split; [reflexivity|split; [|split]]]].
  - intros v. apply (BSTree_insert_spec self v Hinv).
  - intros v Hout.
    destruct (proj2 (BSTree_insert_spec self v Hinv) Hout) as (s' & E & _ & M).
    rewrite E. split; [reflexivity|]. apply M. auto.
  - intros v. apply (BSTree_delete_spec self v Hinv).
  - intros v Hin.
    destruct (proj2 (BSTree_delete_spec self v Hinv) Hin) as (s' & E & _ & M).
    rewrite E. split; [reflexivity|]. cbn [snd]. rewrite M. tauto.
  - intros [v|] once; [|reflexivity].
    assert (Hinv' : invariants once) by (apply invariants_insert, Hinv).
    apply (BSTree_insert_spec once v Hinv'). unfold once.
    destruct (in_dec Z.eq_dec v (BSTree.iter self)) as [Hin|Hout].
    + rewrite (proj1 (BSTree_insert_spec self v Hinv) Hin). exact Hin.
    + destruct (proj2 (BSTree_insert_spec self v Hinv) Hout) as (s' & E & _ & M).
      rewrite E. apply M. auto.
Qed.

Lemma C5_insert_delete_answers_witness :
  BSTree.insert (BSTree.init (Some [Some 2; Some 1; Some 3])) None
    = (false, BSTree.init (Some [Some 2; Some 1; Some 3])).
Proof.
  apply (C5_insert_delete_answers (BSTree.init (Some [Some 2; Some 1; Some 3]))).
  apply reachable_init.
Defined.

(** C6. On a reachable tree, inserting a value that is not there and then
    deleting it gives back the same values: both calls succeed and the
    in-order sequence is the one before. *)
Theorem C6_insert_then_delete self v :
  reachable self -> ~ In v (BSTree.iter self) ->
  let self1 := snd (BSTree.insert self (Some v)) in
  let self2 := snd (BSTree.delete self1 (Some v)) in
  fst (BSTree.insert self (Some v)) = true
  /\ fst (BSTree.delete self1 (Some v)) = true
  /\ BSTree.iter self2 = BSTree.iter self
  /\ forall x, In x (BSTree.iter self2) <-> In x (BSTree.iter self).
Proof.
  intros Hr Hout self1 self2.
  pose proof (reachable_invariants self Hr) as Hinv.
  destruct (proj2 (BSTree_insert_spec self v Hinv) Hout) as (s1 & E1 & Hinv1 & M1).
  assert (Es1 : self1 = s1) by (unfold self1; rewrite E1; reflexivity).
  assert (Hin1 : In v (BSTree.iter s1)) by (apply M1; auto).
  destruct (proj2 (BSTree_delete_spec s1 v Hinv1) Hin1) as (s2 & E2 & Hinv2 & M2).
  assert (Es2 : self2 = s2) by (unfold self2; rewrite Es1, E2; reflexivity).
  assert (M : forall x, In x (BSTree.iter s2) <-> In x (BSTree.iter self)).
  { intros x. rewrite M2, M1. split; [tauto|].
    intros Hx. split; [auto|]. intros ->. contradiction. }
  rewrite E1, Es1, E2, Es2. repeat split; try apply M.
  apply ascending_ext; [apply Hinv2|apply Hinv|exact M].
Qed.

Lemma C6_insert_then_delete_witness :
  BSTree.iter
    (snd (BSTree.delete
            (snd (BSTree.insert (BSTree.init (Some [Some 1; Some 2; Some 4]))
                    (Some 3)))
            (Some 3)))
  = BSTree.iter (BSTree.init (Some [Some 1; Some 2; Some 4])).
Proof.
  apply (C6_insert_then_delete (BSTree.init (Some [Some 1; Some 2; Some 4])) 3).
  - apply reachable_init.
  - simpl. intuition discriminate.
Defined.

Lemma contains_loop_spec n val :
  ascending (Node.iter n) ->
  BSTree.contains_loop n val = true <-> In val (Node.iter n).
Proof.
  induction n as [v b l r IHl IHr] using node_induction. intros Hasc.
  rewrite iter_Node in *.
  apply ascending_app_iff in Hasc. destruct Hasc as (Al & Ar & Ll & Lr).
  cbn [BSTree.contains_loop]. rewrite in_app_iff. simpl.
  destruct (Z.ltb_spec val v) as [Hlt|Hge].
  - destruct l as [ln|]; cbn [oiter present] in *.
    + rewrite (IHl Al). split; [tauto|].
      intros [?|[?|Hx]]; auto; [lia|]. specialize (Lr _ Hx). lia.
    + split; [discriminate|].
      intros [[]|[?|Hx]]; [lia|]. specialize (Lr _ Hx). lia.
  - destruct (Z.gtb_spec val v) as [Hgt|Hle].
    + destruct r as [rn|]; cbn [oiter present] in *.
      * rewrite (IHr Ar). split; [tauto|].
        intros [Hx|[?|?]]; auto; [|lia]. specialize (Ll _ Hx). lia.
      * split; [discriminate|].
        intros [Hx|[?|[]]]; [|lia]. specialize (Ll _ Hx). lia.
    + split; [|reflexivity]. intros _. right. left. lia.
Qed.

(** C7. On a reachable tree, [v in tree] is [True] exactly when [v] is one
    of the values of the in-order iteration.  The test is a function of the
    tree that returns a boolean: it has no failing branch and hands back no
    new tree; it walks down one path, comparing with [<] and [>] only. *)
Theorem C7_membership self v :
  reachable self ->
  BSTree.contains self v = true <-> In v (BSTree.iter self).
Proof.
  intros Hr. destruct (reachable_invariants self Hr) as (_ & Hasc).
  unfold BSTree.contains, BSTree.iter in *.
  destruct (root self) as [n|].
  - apply contains_loop_spec, Hasc.
  - simpl. split; [discriminate|contradiction].
Qed.

Lemma C7_membership_witness :
  BSTree.contains (BSTree.init (Some [Some 5; Some 3; Some 8])) 3 = true
  <-> In 3 (BSTree.iter (BSTree.init (Some [Some 5; Some 3; Some 8]))).
Proof.
  apply (C7_membership (BSTree.init (Some [Some 5; Some 3; Some 8])) 3).
  apply reachable_init.
Defined.

(** ** Positional access *)

Lemma reversed_rev n : Node.reversed n = rev (Node.iter n).
Proof.
  induction n as [v b l r IHl IHr] using node_induction.
  rewrite iter_Node. cbn [Node.reversed]. rewrite rev_app_distr. simpl.
  rewrite <- app_assoc. simpl.
  destruct l, r; cbn [oiter present] in *; rewrite ?IHl, ?IHr; reflexivity.
Qed.

Lemma len_length n : Node.len n = Z.of_nat (length (Node.iter n)).
Proof.
  induction n as [v b l r IHl IHr] using node_induction.
  rewrite iter_Node, length_app. cbn [Node.len length].
  destruct l, r; cbn [oiter present length] in *; rewrite ?IHl, ?IHr; lia.
Qed.

Lemma BSTree_reversed_rev self : BSTree.reversed self = rev (BSTree.iter self).
Proof.
  unfold BSTree.reversed, BSTree.iter. destruct (root self); [|reflexivity].
  apply reversed_rev.
Qed.

Lemma BSTree_len_length self :
  BSTree.len self = Z.of_nat (length (BSTree.iter self)).
Proof.
  unfold BSTree.len, BSTree.iter. destruct (root self); [|reflexivity].
  apply len_length.
Qed.

Lemma getitem_loop_forward pos vals : forall i,
  0 <= i <= pos ->
  BSTree.getitem_loop pos i vals = lookup vals (Z.to_nat (pos - i)).
Proof.
  induction vals as [|a vals IH]; intros i Hi; cbn [BSTree.getitem_loop].
  - unfold lookup. destruct (Z.to_nat (pos - i)); reflexivity.
  - destruct (Z.ltb_spec pos 0); [lia|].
    destruct (Z.eqb_spec i pos) as [->|Hne].
    + rewrite Z.sub_diag. reflexivity.
    + rewrite IH by lia.
      replace (Z.to_nat (pos - i)) with (S (Z.to_nat (pos - (i + 1)))) by lia.
      reflexivity.
Qed.

Lemma getitem_loop_backward pos vals : forall i,
  pos < 0 -> 0 <= i <= - pos - 1 ->
  BSTree.getitem_loop pos i vals = lookup vals (Z.to_nat (- pos - 1 - i)).
Proof.
  induction vals as [|a vals IH]; intros i Hneg Hi; cbn [BSTree.getitem_loop].
  - unfold lookup. destruct (Z.to_nat (- pos - 1 - i)); reflexivity.
  - destruct (Z.ltb_spec pos 0); [|lia].
    destruct (Z.eqb_spec (- i - 1) pos) as [E|Hne].
    + replace (- pos - 1 - i) with 0 by lia. reflexivity.
    + rewrite IH by lia.
      replace (Z.to_nat (- pos - 1 - i))
        with (S (Z.to_nat (- pos - 1 - (i + 1)))) by lia.
      reflexivity.
Qed.

(** C8. With [n] the number of values of the tree: [tree[i]] is the value
    of rank [i] of the forward in-order enumeration when [0 <= i <= n-1],
    the value of rank [n+i] (reached through the reverse enumeration) when
    [-n <= i <= -1], and raises [IndexError] for every other [i], so for
    every [i] on the empty tree. *)
Theorem C8_positional_access self i :
  let n := BSTree.len self in
  (0 <= i <= n - 1 ->
     exists x, nth_error (BSTree.iter self) (Z.to_nat i) = Some x
               /\ BSTree.getitem self i = Ok x)
  /\ (- n <= i <= -1 ->
     exists x, nth_error (BSTree.iter self) (Z.to_nat (n + i)) = Some x
               /\ nth_error (BSTree.reversed self) (Z.to_nat (- i - 1)) = Some x
               /\ BSTree.getitem self i = Ok x)
  /\ (i < - n \/ n - 1 < i -> BSTree.getitem self i = Exn IndexError).
Proof.
  intros n. unfold n. rewrite BSTree_len_length. unfold BSTree.getitem.
  rewrite BSTree_reversed_rev.
  set (vals := BSTree.iter self). split; [|split].
  - intros Hi. destruct (Z.ltb_spec i 0); [lia|].
    rewrite getitem_loop_forward by lia. rewrite Z.sub_0_r. unfold lookup.
    destruct (nth_error vals (Z.to_nat i)) as [x|] eqn:E.
    + exists x. auto.
    + apply nth_error_None in E. lia.
  - intros Hi. destruct (Z.ltb_spec i 0); [|lia].
    rewrite getitem_loop_backward by lia. rewrite Z.sub_0_r. unfold lookup.
    rewrite nth_error_rev.
    destruct (Nat.ltb_spec (Z.to_nat (- i - 1)) (length vals)); [|lia].
    replace (length vals - S (Z.to_nat (- i - 1)))%nat
      with (Z.to_nat (Z.of_nat (length vals) + i)) by lia.
    destruct (nth_error vals (Z.to_nat (Z.of_nat (length vals) + i)))
      as [x|] eqn:E.
    + exists x. auto.
    + apply nth_error_None in E. lia.
  - intros Hi. destruct (Z.ltb_spec i 0).
    + rewrite getitem_loop_backward by lia. rewrite Z.sub_0_r. unfold lookup.
      rewrite (proj2 (nth_error_None _ _)); [reflexivity|].
      rewrite length_rev. lia.
    + rewrite getitem_loop_forward by lia. rewrite Z.sub_0_r. unfold lookup.
      rewrite (proj2 (nth_error_None _ _)); [reflexivity|]. lia.
Qed.

Lemma C8_positional_access_witness :
  (exists x,
      nth_error (BSTree.iter (BSTree.init (Some [Some 4; Some 3; Some 8; Some 1])))
        (Z.to_nat (BSTree.len (BSTree.init (Some [Some 4; Some 3; Some 8; Some 1]))
                   + -1)) = Some x
      /\ nth_error
           (BSTree.reversed (BSTree.init (Some [Some 4; Some 3; Some 8; Some 1])))
           (Z.to_nat (- -1 - 1)) = Some x
      /\ BSTree.getitem (BSTree.init (Some [Some 4; Some 3; Some 8; Some 1])) (-1)
         = Ok x)
  /\ BSTree.getitem (BSTree.init (Some [Some 4; Some 3; Some 8; Some 1])) 4
     = Exn IndexError.
Proof.
  pose proof (C8_positional_access
                (BSTree.init (Some [Some 4; Some 3; Some 8; Some 1]))) as H.
  split.
  - apply (H (-1)). vm_compute. split; discriminate.
  - apply (H 4). right. vm_compute. reflexivity.
Defined.

(** ** Deleting a node with two children *)

Lemma ascending_removelast l d :
  l <> [] -> ascending l ->
  ascending (removelast l)
  /\ forall x, In x (removelast l) <-> In x l /\ x <> last l d.
Proof.
  intros Hne Hasc. pose proof (app_removelast_last d Hne) as E.
  rewrite E in Hasc. apply ascending_app_iff in Hasc.
  destruct Hasc as (A1 & _ & Lt & _). split; [exact A1|].
  intros x. split.
  - intros Hx. split.
    + rewrite E. apply in_or_app. auto.
    + specialize (Lt _ Hx). lia.
  - intros (Hx & Hd). rewrite E in Hx. apply in_app_or in Hx.
    destruct Hx as [|[<-|[]]]; [assumption|contradiction].
Qed.

(** C9. Deleting the value of a node with two children (on a subtree
    satisfying both invariants): the predecessor [find_max] of the left
    subtree is the largest and last value of that subtree; it is deleted
    from the left subtree, which loses exactly its last value; the node
    carries the predecessor as its value when it is rebalanced, and the
    result lists the left values without the predecessor, then the
    predecessor, then the right values.  And the scenario: after inserting
    5, 3, 8, 1, 4 and deleting 5, the root holds 4, the in-order traversal is
    1, 3, 4, 8 and every balance factor is at most 1 in absolute value. *)
Theorem C9_delete_two_children :
  (forall v b ln rn,
      let self := Node v b (Some ln) (Some rn) in
      avl self -> ascending (Node.iter self) ->
      let pred := Node.find_max ln in
      (forall d, pred = last (Node.iter ln) d)
      /\ (forall y, In y (Node.iter ln) -> y <= pred)
      /\ exists l' res,
           Node.delete ln pred = Return l'
           /\ oiter l' = removelast (Node.iter ln)
           /\ Node.delete self v
              = Node.balanced
                  (Node pred (if Node.shrunk (Node.bf ln) l' then b + 1 else b)
                     l' (Some rn))
           /\ Node.delete self v = Return (Some res)
           /\ Node.iter res = removelast (Node.iter ln) ++ pred :: Node.iter rn
           /\ avl res)
  /\ (let tree := BSTree.init (Some [Some 5; Some 3; Some 8; Some 1; Some 4]) in
      let tree' := snd (BSTree.delete tree (Some 5)) in
      fst (BSTree.delete tree (Some 5)) = true
      /\ option_map Node.value (root tree') = Some 4
      /\ BSTree.iter tree' = [1; 3; 4; 8]
      /\ Forall (fun m => Z.abs (Node.bf m) <= 1)
           (match root tree' with Some n => nodes n | None => [] end)).
Proof.
  split.
  - intros v b ln rn self Havl Hasc pred.
    pose proof Havl as (Hb & Hrange & Hl & Hr).
    unfold self in Hasc. rewrite iter_Node in Hasc.
    pose proof (proj1 (ascending_app_iff _ _ _) Hasc) as (Al & Ar & Ll & Lr).
    cbn [oiter present] in *.
    destruct (find_max_spec ln Al) as (Min & Mmax). fold pred in Min, Mmax.
    split; [intros d; apply find_max_last|]. split; [exact Mmax|].
    destruct (delete_spec ln pred Hl Al) as (_ & Hdel).
    destruct (Hdel Min) as (c & E & Hc & Ac & Mc & Hh).
    destruct (delete_left_step v pred b (Some ln) (Some rn) c
                (Node.shrunk (Node.bf ln) c) Havl Hc)
      as (n' & E' & Hn' & It & _).
    { cbn [oheight]. destruct Hh as [(-> & ?)|(-> & ?)]; auto. }
    assert (Ec : oiter c = removelast (Node.iter ln)).
    { destruct (ascending_removelast (Node.iter ln) pred (iter_nonempty ln) Al)
        as (A' & M').
      apply ascending_ext; auto. intros x. rewrite Mc, M'.
      rewrite <- (find_max_last ln pred). reflexivity. }
    assert (Eform : Node.delete self v
                    = Node.balanced
                        (Node pred
                           (if Node.shrunk (Node.bf ln) c then b + 1 else b)
                           c (Some rn))).
    { unfold self. cbn [Node.delete]. rewrite Z.gtb_ltb, Z.ltb_irrefl.
      fold pred. rewrite E.
      destruct (Node.shrunk (Node.bf ln) c); reflexivity. }
    exists c, n'. split; [exact E|]. split; [exact Ec|].
    split; [exact Eform|]. split; [|split; [|exact Hn']].
    + rewrite Eform. unfold Node.balanced.
      destruct (Node.shrunk (Node.bf ln) c); rewrite E'; reflexivity.
    + rewrite It, Ec. reflexivity.
  - vm_compute. repeat split; try discriminate.
    repeat constructor; discriminate.
Qed.

Lemma C9_delete_two_children_witness :
  let ln := Node 3 0 (Some (Node 1 0 None None)) (Some (Node 4 0 None None)) in
  let rn := Node 8 0 None None in
  exists l' res,
    Node.delete ln 4 = Return l'
    /\ oiter l' = removelast (Node.iter ln)
    /\ Node.delete (Node 5 (-1) (Some ln) (Some rn)) 5
       = Node.balanced
           (Node 4 (if Node.shrunk (Node.bf ln) l' then -1 + 1 else -1)
              l' (Some rn))
    /\ Node.delete (Node 5 (-1) (Some ln) (Some rn)) 5 = Return (Some res)
    /\ Node.iter res = removelast (Node.iter ln) ++ 4 :: Node.iter rn
    /\ avl res.
Proof.
  intros ln rn.
  apply (proj1 C9_delete_two_children 5 (-1) ln rn).
  - simpl. repeat split; try reflexivity; discriminate.
  - simpl. repeat constructor.
Defined.

(** C10. The constructor accepts any iterable of values and [None]s: it is
    a total function (the boolean of each [insert] is dropped, nothing is
    raised), and the tree it returns holds exactly the non-[None] values of
    the iterable, each once, in ascending order. *)
Theorem C10_init_skips_duplicates_and_None (vals : list (option Z)) :
  let self := BSTree.init (Some vals) in
  (forall x, In x (BSTree.iter self) <-> In (Some x) vals)
  /\ NoDup (BSTree.iter self)
  /\ ascending (BSTree.iter self)
  /\ BSTree.iter (BSTree.init (Some [Some 2; None; Some 1; Some 2; None; Some 1]))
     = [1; 2].
Proof.
  intros self. destruct (init_spec vals) as ((_ & Hasc) & M). fold self in Hasc, M.
  split; [exact M|]. split; [apply ascending_NoDup, Hasc|].
  split; [exact Hasc|reflexivity].
Qed.

(** ** Failed operations and assignment *)

Lemma getitem_In self i x :
  BSTree.getitem self i = Ok x -> In x (BSTree.iter self).
Proof.
  unfold BSTree.getitem. rewrite BSTree_reversed_rev.
  destruct (Z.ltb_spec i 0).
  - rewrite getitem_loop_backward by lia. unfold lookup.
    destruct (nth_error _ _) eqn:E; [|discriminate].
    intros [= <-]. apply nth_error_In in E. apply in_rev, E.
  - rewrite getitem_loop_forward by lia. unfold lookup.
    destruct (nth_error _ _) eqn:E; [|discriminate].
    intros [= <-]. apply nth_error_In in E. exact E.
Qed.

Lemma setitem_spec self i val old :
  invariants self -> BSTree.getitem self i = Ok old ->
  exists self',
    BSTree.setitem self i val = (Ok tt, self')
    /\ invariants self'
    /\ forall x, In x (BSTree.iter self')
                 <-> val = Some x \/ (In x (BSTree.iter self) /\ x <> old).
Proof.
  intros Hinv Hget. unfold BSTree.setitem. rewrite Hget.
  eexists. split; [reflexivity|].
  destruct (proj2 (BSTree_delete_spec self old Hinv) (getitem_In _ _ _ Hget))
    as (s1 & E1 & Hinv1 & M1).
  rewrite E1. cbn [snd]. split; [apply invariants_insert, Hinv1|].
  intros x. destruct val as [w|].
  - destruct (BSTree_insert_spec s1 w Hinv1) as (Hin & Hout).
    destruct (in_dec Z.eq_dec w (BSTree.iter s1)) as [H|H].
    + rewrite (Hin H). cbn [snd]. rewrite M1. split; [tauto|].
      intros [[= <-]|?]; [apply M1, H|assumption].
    + destruct (Hout H) as (s2 & E2 & _ & M2). rewrite E2. cbn [snd].
      rewrite M2, M1. split.
      * intros [->|?]; auto.
      * intros [[= <-]|?]; auto.
  - cbn [BSTree.insert snd]. rewrite M1. split; [tauto|].
    intros [?|?]; [discriminate|assumption].
Qed.

(** Every failure the public interface reports leaves a reachable tree
    as it was: an [insert] or [delete] that answers [False] hands back the
    very same tree, a [set] at an index for which [get] raises propagates
    that exception with the tree untouched, and [index] of an absent value
    raises ([get] and [index] only read the tree, they hand back no tree);
    and both invariants hold after every [insert] and [delete]. *)
Lemma reported_failures_change_nothing self :
  reachable self ->
  (forall val, fst (BSTree.insert self val) = false ->
               snd (BSTree.insert self val) = self)
  /\ (forall val, fst (BSTree.delete self val) = false ->
                  snd (BSTree.delete self val) = self)
  /\ (forall val, invariants (snd (BSTree.insert self val))
                  /\ invariants (snd (BSTree.delete self val)))
  /\ (forall i val e, BSTree.getitem self i = Exn e ->
                      BSTree.setitem self i val = (Exn e, self))
  /\ (forall v, ~ In v (BSTree.iter self) ->
                BSTree.index self v = Exn ValueError).
Proof.
  intros Hr. pose proof (reachable_invariants self Hr) as Hinv.
  split; [|split; [|split; [|split]]].
  - intros [v|]; [|reflexivity].
    destruct (BSTree_insert_spec self v Hinv) as (Hin & Hout).
    destruct (in_dec Z.eq_dec v (BSTree.iter self)) as [H|H].
    + rewrite (Hin H). reflexivity.
    + destruct (Hout H) as (s' & E & _). rewrite E. discriminate.
  - intros [v|]; [|reflexivity].
    destruct (BSTree_delete_spec self v Hinv) as (Hout & Hin).
    destruct (in_dec Z.eq_dec v (BSTree.iter self)) as [H|H].
    + destruct (Hin H) as (s' & E & _). rewrite E. discriminate.
    + rewrite (Hout H). reflexivity.
  - intros val. split; [apply invariants_insert|apply invariants_delete]; exact Hinv.
  - intros i val e Hget. unfold BSTree.setitem. rewrite Hget. reflexivity.
  - intros v. apply index_loop_spec.
Qed.

(** C4. The code breaks the last part of the claim.  On the tree of 1, 2,
    3, which is reachable and on which [insert(None)] and [delete(None)]
    answer [False] and hand back the same tree, the assignment
    [tree[0] = None] reports no failure and yet leaves the tree holding 2
    and 3: it is not the tree as it was, and the assigned value has not
    taken the place of 1.  The assignment [tree[0] = 3] goes the same way:
    no failure is reported and the tree is left one value short. *)
Theorem C4_set_None_loses_a_value :
  let self := BSTree.init (Some [Some 1; Some 2; Some 3]) in
  reachable self
  /\ BSTree.getitem self 0 = Ok 1
  /\ BSTree.insert self None = (false, self)
  /\ BSTree.delete self None = (false, self)
  /\ fst (BSTree.setitem self 0 None) = Ok tt
  /\ BSTree.iter (snd (BSTree.setitem self 0 None)) = [2; 3]
  /\ snd (BSTree.setitem self 0 None) <> self
  /\ ~ set_replaces_or_keeps self 0 None
  /\ fst (BSTree.setitem self 0 (Some 3)) = Ok tt
  /\ BSTree.iter (snd (BSTree.setitem self 0 (Some 3))) = [2; 3].
Proof.
  intros self. split; [apply reachable_init|].
  repeat (split; [reflexivity|]).
  split; [discriminate|]. split; [|split; reflexivity].
  intros [H|(old & v & _ & H & _)]; discriminate.
Qed.

(** * Further properties of the module *)

(** ** Counting and enumerating *)

(** X1. [len(tree)] is the number of values the forward iteration yields,
    for every tree, balanced or not. *)
Theorem X1_len_counts_iteration self :
  BSTree.len self = Z.of_nat (length (BSTree.iter self)).
Proof. apply BSTree_len_length. Qed.

Lemma ascending_rev_descending l :
  ascending l -> StronglySorted Z.gt (rev l).
Proof.
  unfold ascending. induction 1 as [|a l Hs IH Hf]; [constructor|].
  simpl. rewrite Forall_forall in Hf.
  assert (G : forall l1, StronglySorted Z.gt l1 ->
                         (forall y, In y l1 -> a < y) ->
                         StronglySorted Z.gt (l1 ++ [a])).
  { clear. induction 1 as [|b l1 Hs1 IH1 Hf1]; intros Hlt; simpl.
    - repeat constructor.
    - constructor.
      + apply IH1. intros y Hy. apply Hlt. right. exact Hy.
      + rewrite Forall_forall in *. intros y Hy. apply in_app_or in Hy.
        destruct Hy as [Hy|[<-|[]]]; [apply Hf1, Hy|].
        specialize (Hlt b (or_introl eq_refl)). lia. }
  apply G; [exact IH|]. intros y Hy. apply Hf, in_rev, Hy.
Qed.

(** X2. Reverse iteration yields the forward iteration backwards, for
    every tree; on a reachable tree it is strictly descending. *)
Theorem X2_reversed_is_iter_backwards :
  (forall self, BSTree.reversed self = rev (BSTree.iter self))
  /\ (forall self, reachable self ->
        StronglySorted Z.gt (BSTree.reversed self)).
Proof.
  split; [exact BSTree_reversed_rev|].
  intros self Hr. rewrite BSTree_reversed_rev.
  apply ascending_rev_descending, reachable_invariants, Hr.
Qed.

Lemma X2_reversed_is_iter_backwards_witness :
  StronglySorted Z.gt
    (BSTree.reversed (BSTree.init (Some [Some 2; Some 9; Some 4]))).
Proof.
  apply (proj2 X2_reversed_is_iter_backwards). apply reachable_init.
Defined.

Lemma length_added (l l' : list Z) v :
  NoDup l -> NoDup l' -> ~ In v l ->
  (forall x, In x l' <-> x = v \/ In x l) ->
  length l' = S (length l).
Proof.
  intros Hl Hl' Hv M.
  change (S (length l)) with (length (v :: l)).
  apply Permutation_length, NoDup_Permutation; auto.
  - constructor; assumption.
  - intros x. rewrite M. simpl. intuition auto.
Qed.

Lemma length_removed (l l' : list Z) v :
  NoDup l -> NoDup l' -> In v l ->
  (forall x, In x l' <-> In x l /\ x <> v) ->
  length l = S (length l').
Proof.
  intros Hl Hl' Hv M.
  change (S (length l')) with (length (v :: l')).
  apply Permutation_length, NoDup_Permutation; auto.
  - constructor; [|assumption]. rewrite M. tauto.
  - intros x. simpl. rewrite M.
    destruct (Z.eq_dec v x) as [->|]; intuition auto.
Qed.

Lemma len_after_call self val :
  invariants self ->
  BSTree.len (snd (BSTree.insert self val))
    = BSTree.len self + (if fst (BSTree.insert self val) then 1 else 0)
  /\ BSTree.len (snd (BSTree.delete self val))
    = BSTree.len self - (if fst (BSTree.delete self val) then 1 else 0).
Proof.
  intros Hinv.
  destruct val as [v|]; [|simpl; lia].
  pose proof (ascending_NoDup _ (proj2 Hinv)) as Hnd.
  rewrite !BSTree_len_length.
  destruct (BSTree_insert_spec self v Hinv) as (Iin & Iout).
  destruct (BSTree_delete_spec self v Hinv) as (Dout & Din).
  destruct (in_dec Z.eq_dec v (BSTree.iter self)) as [H|H].
  - rewrite (Iin H). destruct (Din H) as (s' & E & Hinv' & M). rewrite E.
    cbn [fst snd].
    rewrite (length_removed _ (BSTree.iter s') v Hnd
               (ascending_NoDup _ (proj2 Hinv')) H M). lia.
  - rewrite (Dout H). destruct (Iout H) as (s' & E & Hinv' & M). rewrite E.
    cbn [fst snd].
    rewrite (length_added (BSTree.iter self) _ v Hnd
               (ascending_NoDup _ (proj2 Hinv')) H M). lia.
Qed.

(** X3. On a reachable tree a successful [insert] makes [len] one larger
    and a successful [delete] one smaller; a call that answers [False]
    leaves [len] as it is. *)
Theorem X3_len_after_insert_delete self val :
  reachable self ->
  BSTree.len (snd (BSTree.insert self val))
    = BSTree.len self + (if fst (BSTree.insert self val) then 1 else 0)
  /\ BSTree.len (snd (BSTree.delete self val))
    = BSTree.len self - (if fst (BSTree.delete self val) then 1 else 0).
Proof.
  intros Hr. apply len_after_call, reachable_invariants, Hr.
Qed.

Lemma X3_len_after_insert_delete_witness :
  BSTree.len (snd (BSTree.insert (BSTree.init (Some [Some 2; Some 7])) (Some 5)))
    = BSTree.len (BSTree.init (Some [Some 2; Some 7]))
      + (if fst (BSTree.insert (BSTree.init (Some [Some 2; Some 7])) (Some 5))
         then 1 else 0)
  /\ BSTree.len (snd (BSTree.delete (BSTree.init (Some [Some 2; Some 7])) (Some 5)))
    = BSTree.len (BSTree.init (Some [Some 2; Some 7]))
      - (if fst (BSTree.delete (BSTree.init (Some [Some 2; Some 7])) (Some 5))
         then 1 else 0).
Proof.
  apply (X3_len_after_insert_delete
           (BSTree.init (Some [Some 2; Some 7])) (Some 5)).
  apply reachable_init.
Defined.

Lemma contains_In self v :
  invariants self ->
  BSTree.contains self v = true <-> In v (BSTree.iter self).
Proof.
  intros (_ & Hasc). unfold BSTree.contains, BSTree.iter in *.
  destruct (root self) as [n|].
  - apply contains_loop_spec, Hasc.
  - simpl. split; [discriminate|contradiction].
Qed.

Lemma bool_eq_iff (a b : bool) : (a = true <-> b = true) -> a = b.
Proof. destruct a, b; intuition congruence. Qed.

(** X4. Membership after a mutation, on a reachable tree: after
    [insert(v)] the test [w in tree] answers as before, except that it is
    [True] for [v]; after [delete(v)] it answers as before, except that it
    is [False] for [v]. *)
Theorem X4_contains_after_insert_delete self v w :
  reachable self ->
  BSTree.contains (snd (BSTree.insert self (Some v))) w
    = (w =? v) || BSTree.contains self w
  /\ BSTree.contains (snd (BSTree.delete self (Some v))) w
    = negb (w =? v) && BSTree.contains self w.
Proof.
  intros Hr.
  pose proof (reachable_invariants self Hr) as Hinv.
  assert (Hc : forall s, reachable s ->
               BSTree.contains s w = true <-> In w (BSTree.iter s)).
  { intros s Hs. apply contains_In, reachable_invariants, Hs. }
  split; apply bool_eq_iff.
  - rewrite (Hc _ (reach_insert self (Some v) Hr)).
    rewrite orb_true_iff, Z.eqb_eq, (Hc _ Hr).
    destruct (BSTree_insert_spec self v Hinv) as (Iin & Iout).
    destruct (in_dec Z.eq_dec v (BSTree.iter self)) as [H|H].
    + rewrite (Iin H). cbn [snd]. split; [tauto|]. intros [->|?]; assumption.
    + destruct (Iout H) as (s' & E & _ & M). rewrite E. cbn [snd]. apply M.
  - rewrite (Hc _ (reach_delete self (Some v) Hr)).
    rewrite andb_true_iff, negb_true_iff, Z.eqb_neq, (Hc _ Hr).
    destruct (BSTree_delete_spec self v Hinv) as (Dout & Din).
    destruct (in_dec Z.eq_dec v (BSTree.iter self)) as [H|H].
    + destruct (Din H) as (s' & E & _ & M). rewrite E. cbn [snd].
      rewrite M. tauto.
    + rewrite (Dout H). cbn [snd]. split; [|tauto].
      intros Hw. split; [|exact Hw]. intros ->. contradiction.
Qed.

Lemma X4_contains_after_insert_delete_witness :
  BSTree.contains
    (snd (BSTree.insert (BSTree.init (Some [Some 1; Some 6])) (Some 3))) 3
    = (3 =? 3) || BSTree.contains (BSTree.init (Some [Some 1; Some 6])) 3
  /\ BSTree.contains
       (snd (BSTree.delete (BSTree.init (Some [Some 1; Some 6])) (Some 3))) 3
     = negb (3 =? 3) && BSTree.contains (BSTree.init (Some [Some 1; Some 6])) 3.
Proof.
  apply (X4_contains_after_insert_delete
           (BSTree.init (Some [Some 1; Some 6])) 3 3).
  apply reachable_init.
Defined.

(** ** Ranks *)

Lemma getitem_forward self i :
  0 <= i -> BSTree.getitem self i = lookup (BSTree.iter self) (Z.to_nat i).
Proof.
  intros Hi. unfold BSTree.getitem. destruct (Z.ltb_spec i 0); [lia|].
  rewrite getitem_loop_forward by lia. rewrite Z.sub_0_r. reflexivity.
Qed.

Lemma getitem_backward self i :
  i < 0 ->
  BSTree.getitem self i = lookup (BSTree.reversed self) (Z.to_nat (- i - 1)).
Proof.
  intros Hi. unfold BSTree.getitem. destruct (Z.ltb_spec i 0); [|lia].
  rewrite getitem_loop_backward by lia. rewrite Z.sub_0_r. reflexivity.
Qed.

Lemma lookup_Ok vals k x : lookup vals k = Ok x <-> nth_error vals k = Some x.
Proof.
  unfold lookup. destruct (nth_error vals k); split; congruence.
Qed.

(** X5. [index] and [tree[i]] undo each other: the rank [index(v)]
    returns holds [v] (on every tree), and on a reachable tree the value at
    a non-negative rank [i] has index [i]; [index] raises [ValueError]
    exactly for the values [in] rejects. *)
Theorem X5_index_getitem_round_trip :
  (forall self v k, BSTree.index self v = Ok k ->
      0 <= k < BSTree.len self /\ BSTree.getitem self k = Ok v)
  /\ (forall self i v, reachable self -> 0 <= i ->
      BSTree.getitem self i = Ok v -> BSTree.index self v = Ok i)
  /\ (forall self v, reachable self ->
      BSTree.index self v = Exn ValueError <-> BSTree.contains self v = false).
Proof.
  split; [|split].
  - intros self v k Hidx. unfold BSTree.index in Hidx.
    destruct (index_loop_spec v (BSTree.iter self) 0) as (Hout & Hin).
    destruct (in_dec Z.eq_dec v (BSTree.iter self)) as [H|H].
    + destruct (Hin H) as (k' & E & Hk'). rewrite E in Hidx.
      injection Hidx as <-. rewrite BSTree_len_length.
      assert (k' < length (BSTree.iter self))%nat
        by (apply nth_error_Some; congruence).
      split; [lia|]. rewrite getitem_forward by lia. apply lookup_Ok.
      match goal with
      | |- nth_error _ ?m = _ => replace m with k' by lia
      end.
      exact Hk'.
    + rewrite (Hout H) in Hidx. discriminate.
  - intros self i v Hr Hi Hget.
    rewrite getitem_forward in Hget by lia. apply lookup_Ok in Hget.
    destruct (index_loop_spec v (BSTree.iter self) 0) as (_ & Hin).
    destruct (Hin (nth_error_In _ _ Hget)) as (k' & E & Hk').
    unfold BSTree.index. rewrite E. f_equal.
    pose proof (ascending_NoDup _ (proj2 (reachable_invariants self Hr))) as Hnd.
    rewrite NoDup_nth_error in Hnd.
    assert (k' = Z.to_nat i).
    { apply Hnd; [apply nth_error_Some|]; congruence. }
    lia.
  - intros self v Hr.
    destruct (index_loop_spec v (BSTree.iter self) 0) as (Hout & Hin).
    pose proof (contains_In self v (reachable_invariants self Hr)) as Hc.
    unfold BSTree.index. split.
    + intros E. destruct (BSTree.contains self v); [|reflexivity].
      destruct (Hin (proj1 Hc eq_refl)) as (k & E' & _). congruence.
    + intros E. apply Hout. intros H. apply Hc in H. congruence.
Qed.

Lemma X5_index_getitem_round_trip_witness :
  BSTree.index (BSTree.init (Some [Some 4; Some 1; Some 9])) 9 = Ok 2.
Proof.
  apply (proj1 (proj2 X5_index_getitem_round_trip)
           (BSTree.init (Some [Some 4; Some 1; Some 9])) 2 9).
  - apply reachable_init.
  - lia.
  - reflexivity.
Defined.

Lemma ascending_nth_error l : forall a b x y,
  ascending l -> (a < b)%nat ->
  nth_error l a = Some x -> nth_error l b = Some y -> x < y.
Proof.
  unfold ascending. induction l as [|h l IH]; intros a b x y Hs Hab Ha Hb.
  - destruct a; discriminate.
  - inversion Hs as [|? ? Hs' Hf]; subst. rewrite Forall_forall in Hf.
    destruct b as [|b]; [lia|]. simpl in Hb. destruct a as [|a].
    + injection Ha as <-. apply Hf. eapply nth_error_In, Hb.
    + simpl in Ha. apply (IH a b); auto. lia.
Qed.

(** X6. Ranks follow the order: on a reachable tree the value at a
    smaller non-negative rank is strictly smaller; and on every tree a
    negative index names the same value as the index [len] larger. *)
Theorem X6_ranks_are_ordered :
  (forall self i j x y, reachable self -> 0 <= i < j ->
      BSTree.getitem self i = Ok x -> BSTree.getitem self j = Ok y -> x < y)
  /\ (forall self i, 0 <= i < BSTree.len self ->
      BSTree.getitem self (i - BSTree.len self) = BSTree.getitem self i).
Proof.
  split.
  - intros self i j x y Hr Hij Hi Hj.
    rewrite getitem_forward in Hi, Hj by lia. apply lookup_Ok in Hi, Hj.
    apply (ascending_nth_error (BSTree.iter self) (Z.to_nat i) (Z.to_nat j));
      auto; [apply reachable_invariants, Hr|lia].
  - intros self i Hi. rewrite BSTree_len_length in *.
    rewrite getitem_backward, getitem_forward by lia.
    rewrite BSTree_reversed_rev. unfold lookup. rewrite nth_error_rev.
    set (vals := BSTree.iter self) in *.
    destruct (Nat.ltb_spec (Z.to_nat (- (i - Z.of_nat (length vals)) - 1))
                (length vals)); [|lia].
    replace (length vals - S (Z.to_nat (- (i - Z.of_nat (length vals)) - 1)))%nat
      with (Z.to_nat i) by lia.
    reflexivity.
Qed.

Lemma X6_ranks_are_ordered_witness : 2 < 5.
Proof.
  apply (proj1 X6_ranks_are_ordered
           (BSTree.init (Some [Some 5; Some 2; Some 8])) 0 1 2 5).
  - apply reachable_init.
  - lia.
  - reflexivity.
  - reflexivity.
Defined.

Lemma find_min_hd n d : Node.find_min n = hd d (Node.iter n).
Proof.
  revert d. induction n as [v b l r IHl IHr] using node_induction. intros d.
  rewrite iter_Node. cbn [Node.find_min].
  destruct l as [ln|]; cbn [oiter present] in *; [|reflexivity].
  rewrite (IHl d). pose proof (iter_nonempty ln).
  destruct (Node.iter ln); [contradiction|reflexivity].
Qed.

Lemma find_min_spec n :
  ascending (Node.iter n) ->
  forall y, In y (Node.iter n) -> Node.find_min n <= y.
Proof.
  intros Hasc y Hy. rewrite (find_min_hd n 0).
  unfold ascending in Hasc. destruct (Node.iter n) as [|h t]; [contradiction|].
  inversion Hasc as [|? ? _ Hf]; subst. rewrite Forall_forall in Hf.
  destruct Hy as [<-|Hy]; simpl; [lia|]. specialize (Hf _ Hy). lia.
Qed.

(** X7. The two ends: on every non-empty tree [tree[0]] is what
    [find_min] returns at the root and [tree[-1]] is what [find_max]
    returns there; on a reachable tree every value of the tree lies between
    the two. *)
Theorem X7_find_min_find_max :
  (forall self n, root self = Some n ->
      BSTree.getitem self 0 = Ok (Node.find_min n)
      /\ BSTree.getitem self (-1) = Ok (Node.find_max n))
  /\ (forall self n, reachable self -> root self = Some n ->
      forall x, In x (BSTree.iter self) ->
                Node.find_min n <= x <= Node.find_max n).
Proof.
  split.
  - intros self n Hroot. split.
    + rewrite getitem_forward by lia. unfold BSTree.iter. rewrite Hroot.
      rewrite (find_min_hd n 0). pose proof (iter_nonempty n).
      destruct (Node.iter n); [contradiction|reflexivity].
    + rewrite getitem_backward by lia. rewrite BSTree_reversed_rev.
      unfold BSTree.iter. rewrite Hroot. rewrite (find_max_last n 0).
      pose proof (iter_nonempty n) as Hne.
      rewrite (app_removelast_last 0 Hne) at 1.
      rewrite rev_app_distr. reflexivity.
  - intros self n Hr Hroot x Hx.
    destruct (reachable_invariants self Hr) as (_ & Hasc).
    unfold BSTree.iter in *. rewrite Hroot in *. split.
    + apply find_min_spec; assumption.
    + apply find_max_spec; assumption.
Qed.

Lemma X7_find_min_find_max_witness :
  BSTree.getitem (BSTree.init (Some [Some 5; Some 2; Some 8])) 0
    = Ok (Node.find_min
            (Node 5 0 (Some (Node 2 0 None None)) (Some (Node 8 0 None None))))
  /\ BSTree.getitem (BSTree.init (Some [Some 5; Some 2; Some 8])) (-1)
     = Ok (Node.find_max
             (Node 5 0 (Some (Node 2 0 None None)) (Some (Node 8 0 None None)))).
Proof.
  apply (proj1 X7_find_min_find_max). reflexivity.
Defined.

(** ** Compositions *)

(** X8. On a reachable tree, deleting a value that is there and then
    inserting it again gives back the same in-order sequence; both calls
    answer [True]. *)
Theorem X8_delete_then_insert self v :
  reachable self -> In v (BSTree.iter self) ->
  let self1 := snd (BSTree.delete self (Some v)) in
  fst (BSTree.delete self (Some v)) = true
  /\ fst (BSTree.insert self1 (Some v)) = true
  /\ BSTree.iter (snd (BSTree.insert self1 (Some v))) = BSTree.iter self.
Proof.
  intros Hr Hin self1. pose proof (reachable_invariants self Hr) as Hinv.
  destruct (proj2 (BSTree_delete_spec self v Hinv) Hin) as (s1 & E1 & Hinv1 & M1).
  assert (Es1 : self1 = s1) by (unfold self1; rewrite E1; reflexivity).
  assert (Hout1 : ~ In v (BSTree.iter s1)) by (rewrite M1; tauto).
  destruct (proj2 (BSTree_insert_spec s1 v Hinv1) Hout1) as (s2 & E2 & Hinv2 & M2).
  rewrite E1, Es1, E2. cbn [fst snd]. repeat split.
  apply ascending_ext; [apply Hinv2|apply Hinv|].
  intros x. rewrite M2, M1. split.
  - intros [->|?]; tauto.
  - intros Hx. destruct (Z.eq_dec x v); auto.
Qed.

Lemma X8_delete_then_insert_witness :
  fst (BSTree.delete (BSTree.init (Some [Some 3; Some 1; Some 2])) (Some 3)) = true
  /\ fst (BSTree.insert
            (snd (BSTree.delete (BSTree.init (Some [Some 3; Some 1; Some 2]))
                    (Some 3)))
            (Some 3)) = true
  /\ BSTree.iter
       (snd (BSTree.insert
               (snd (BSTree.delete (BSTree.init (Some [Some 3; Some 1; Some 2]))
                       (Some 3)))
               (Some 3)))
     = BSTree.iter (BSTree.init (Some [Some 3; Some 1; Some 2])).
Proof.
  apply (X8_delete_then_insert (BSTree.init (Some [Some 3; Some 1; Some 2])) 3).
  - apply reachable_init.
  - simpl. auto.
Defined.

(** X9. The two rotations are inverse to each other, balance factors
    included, whatever the stored balance factors are: rotating a node with
    a right child to the left and the result to the right gives the node
    back, and the other way round for a node with a left child. *)
Theorem X9_rotations_are_inverse :
  (forall v b l rn,
      exists n', Node.rotate_left (Node v b l (Some rn)) = Return n'
                 /\ Node.rotate_right n' = Return (Node v b l (Some rn)))
  /\ (forall v b ln r,
      exists n', Node.rotate_right (Node v b (Some ln) r) = Return n'
                 /\ Node.rotate_left n' = Return (Node v b (Some ln) r)).
Proof.
  split.
  - intros v b l [bv bb bl br]. eexists. split; [reflexivity|].
    cbn [Node.rotate_right]. repeat f_equal; lia.
  - intros v b [bv bb bl br] r. eexists. split; [reflexivity|].
    cbn [Node.rotate_left]. repeat f_equal; lia.
Qed.

(** ** Height *)

Lemma fib_SS k : fib (S (S k)) = fib (S k) + fib k.
Proof. reflexivity. Qed.

Lemma fib_mono k : 0 <= fib k <= fib (S k).
Proof.
  induction k as [|k IH]; [simpl; lia|].
  rewrite fib_SS. lia.
Qed.

Lemma len_Node v b l r : Node.len (Node v b l r) = 1 + olen l + olen r.
Proof. reflexivity. Qed.

Lemma avl_len_lower n :
  avl n -> fib (Z.to_nat (Node.height n + 3)) - 1 <= Node.len n.
Proof.
  induction n as [v b l r IHl IHr] using node_induction.
  intros (Hb & Hrange & Hl & Hr).
  assert (Bl : fib (Z.to_nat (oheight l + 3)) - 1 <= olen l).
  { destruct l; cbn [present oheight olen] in *; [auto|simpl; lia]. }
  assert (Br : fib (Z.to_nat (oheight r + 3)) - 1 <= olen r).
  { destruct r; cbn [present oheight olen] in *; [auto|simpl; lia]. }
  rewrite height_Node, len_Node.
  pose proof (oheight_ge l). pose proof (oheight_ge r).
  destruct (Z.le_ge_cases (oheight r) (oheight l)) as [Hle|Hle].
  - rewrite Z.max_l by lia.
    replace (Z.to_nat (oheight l + 1 + 3))
      with (S (S (Z.to_nat (oheight l + 2)))) by lia.
    rewrite fib_SS.
    replace (S (Z.to_nat (oheight l + 2)))
      with (Z.to_nat (oheight l + 3)) by lia.
    assert (fib (Z.to_nat (oheight l + 2)) <= fib (Z.to_nat (oheight r + 3))).
    { assert (oheight r = oheight l \/ oheight r = oheight l - 1) as [E|E]
        by lia; rewrite E.
      - replace (Z.to_nat (oheight l + 3))
          with (S (Z.to_nat (oheight l + 2))) by lia.
        apply fib_mono.
      - replace (oheight l - 1 + 3) with (oheight l + 2) by lia. lia. }
    lia.
  - rewrite Z.max_r by lia.
    replace (Z.to_nat (oheight r + 1 + 3))
      with (S (S (Z.to_nat (oheight r + 2)))) by lia.
    rewrite fib_SS.
    replace (S (Z.to_nat (oheight r + 2)))
      with (Z.to_nat (oheight r + 3)) by lia.
    assert (fib (Z.to_nat (oheight r + 2)) <= fib (Z.to_nat (oheight l + 3))).
    { assert (oheight l = oheight r \/ oheight l = oheight r - 1) as [E|E]
        by lia; rewrite E.
      - replace (Z.to_nat (oheight r + 3))
          with (S (Z.to_nat (oheight r + 2))) by lia.
        apply fib_mono.
      - replace (oheight r - 1 + 3) with (oheight r + 2) by lia. lia. }
    lia.
Qed.

Lemma len_upper n : Node.len n <= 2 ^ (Node.height n + 1) - 1.
Proof.
  induction n as [v b l r IHl IHr] using node_induction.
  assert (Bl : olen l <= 2 ^ (oheight l + 1) - 1).
  { destruct l; cbn [present oheight olen] in *; [auto|simpl; lia]. }
  assert (Br : olen r <= 2 ^ (oheight r + 1) - 1).
  { destruct r; cbn [present oheight olen] in *; [auto|simpl; lia]. }
  rewrite height_Node, len_Node.
  pose proof (oheight_ge l). pose proof (oheight_ge r).
  set (m := Z.max (oheight l) (oheight r)) in *.
  assert (2 ^ (oheight l + 1) <= 2 ^ (m + 1))
    by (apply Z.pow_le_mono_r; lia).
  assert (2 ^ (oheight r + 1) <= 2 ^ (m + 1))
    by (apply Z.pow_le_mono_r; lia).
  replace (m + 1 + 1) with (Z.succ (m + 1)) by lia.
  rewrite Z.pow_succ_r by lia. lia.
Qed.

(** X10. The height of a reachable tree is logarithmic in its size: a
    tree whose root has height [h] holds at least [fib(h+3) - 1] values (the
    bound of height-balanced trees) and, like every binary tree, at most
    [2^(h+1) - 1]. *)
Theorem X10_height_is_logarithmic self n :
  reachable self -> root self = Some n ->
  fib (Z.to_nat (Node.height n + 3)) - 1 <= BSTree.len self
  /\ BSTree.len self <= 2 ^ (Node.height n + 1) - 1.
Proof.
  intros Hr Hroot. destruct (reachable_invariants self Hr) as (Havl & _).
  unfold BSTree.len. rewrite Hroot in *. split.
  - apply avl_len_lower, Havl.
  - apply len_upper.
Qed.

Lemma X10_height_is_logarithmic_witness :
  let n := Node 2 1 (Some (Node 1 0 None None))
             (Some (Node 3 1 None (Some (Node 4 0 None None)))) in
  fib (Z.to_nat (Node.height n + 3)) - 1
    <= BSTree.len (BSTree.init (Some [Some 1; Some 2; Some 3; Some 4]))
  /\ BSTree.len (BSTree.init (Some [Some 1; Some 2; Some 3; Some 4]))
     <= 2 ^ (Node.height n + 1) - 1.
Proof.
  apply (X10_height_is_logarithmic
           (BSTree.init (Some [Some 1; Some 2; Some 3; Some 4]))).
  - apply reachable_init.
  - reflexivity.
Defined.

(** X11. One call of the node methods, on a subtree that satisfies both
    invariants: [Node.insert] returns a subtree of the same height or one
    more, [Node.delete] one of the same height or one less, both balanced
    again; and the only way either raises is [RuntimeError], for a value
    that is present ([insert]) or absent ([delete]), with the subtree left
    as it was. *)
Theorem X11_node_calls n val :
  avl n -> ascending (Node.iter n) ->
  (forall n', Node.insert n val = Return n' ->
      avl n' /\ Node.height n <= Node.height n' <= Node.height n + 1)
  /\ (forall r', Node.delete n val = Return r' ->
      present avl r' /\ Node.height n - 1 <= oheight r' <= Node.height n)
  /\ (forall e s, Node.insert n val = Raise e s ->
      e = RuntimeError /\ s = n /\ In val (Node.iter n))
  /\ (forall e s, Node.delete n val = Raise e s ->
      e = RuntimeError /\ s = n /\ ~ In val (Node.iter n)).
Proof.
  intros Havl Hasc.
  destruct (insert_spec n val Havl Hasc) as (Iin & Iout).
  destruct (delete_spec n val Havl Hasc) as (Dout & Din).
  destruct (in_dec Z.eq_dec val (Node.iter n)) as [H|H].
  - specialize (Iin H). destruct (Din H) as (r0 & E & Hr0 & _ & _ & Hh).
    split; [|split; [|split]].
    + intros n' E'. congruence.
    + intros r' E'. assert (r' = r0) as -> by congruence.
      split; [exact Hr0|lia].
    + intros e s E'. rewrite Iin in E'. injection E' as <- <-. auto.
    + intros e s E'. congruence.
  - specialize (Dout H). destruct (Iout H) as (n0 & E & Hn0 & _ & _ & Hh).
    split; [|split; [|split]].
    + intros n' E'. assert (n' = n0) as -> by congruence.
      split; [exact Hn0|lia].
    + intros r' E'. congruence.
    + intros e s E'. congruence.
    + intros e s E'. rewrite Dout in E'. injection E' as <- <-. auto.
Qed.

Lemma X11_node_calls_witness :
  let n := Node 5 (-1) (Some (Node 3 0 None None)) None in
  let n' := Node 3 0 (Some (Node 1 0 None None)) (Some (Node 5 0 None None)) in
  avl n' /\ Node.height n <= Node.height n' <= Node.height n + 1.
Proof.
  apply (X11_node_calls (Node 5 (-1) (Some (Node 3 0 None None)) None) 1).
  - simpl. repeat split; try reflexivity; discriminate.
  - simpl. repeat constructor.
  - reflexivity.
Defined.

(** ** Assignment, truth value, rebuilding *)

(** X12. What [tree[i] = v] does to a reachable tree at a valid index
    holding [old]: with [v = None], or with a [v] other than [old] that is
    already in the tree, the tree ends one value shorter; with [v = old] the
    in-order sequence is the one before; with a new [v] the length is kept,
    [v] is in the tree and [old] no longer is. *)
Theorem X12_setitem_effects self i val old :
  reachable self -> BSTree.getitem self i = Ok old ->
  let self' := snd (BSTree.setitem self i val) in
  match val with
  | None => BSTree.len self' = BSTree.len self - 1
  | Some w =>
      if w =? old then BSTree.iter self' = BSTree.iter self
      else if BSTree.contains self w
      then BSTree.len self' = BSTree.len self - 1
      else BSTree.len self' = BSTree.len self
           /\ BSTree.contains self' w = true
           /\ BSTree.contains self' old = false
  end.
Proof.
  intros Hr Hget self'. pose proof (reachable_invariants self Hr) as Hinv.
  pose proof (getitem_In _ _ _ Hget) as Hold.
  destruct (setitem_spec self i val old Hinv Hget) as (s2 & E2 & Hinv2 & M2).
  assert (Es : self' = s2) by (unfold self'; rewrite E2; reflexivity).
  rewrite Es. clear Es self'.
  pose proof (ascending_NoDup _ (proj2 Hinv)) as Hnd.
  pose proof (ascending_NoDup _ (proj2 Hinv2)) as Hnd2.
  assert (Hshort : (forall x, In x (BSTree.iter s2)
                              <-> In x (BSTree.iter self) /\ x <> old) ->
                   BSTree.len s2 = BSTree.len self - 1).
  { intros M. rewrite !BSTree_len_length.
    rewrite (length_removed _ _ old Hnd Hnd2 Hold M). lia. }
  destruct val as [w|].
  - destruct (Z.eqb_spec w old) as [->|Hne].
    + apply ascending_ext; [apply Hinv2|apply Hinv|].
      intros x. rewrite M2. split.
      * intros [[= <-]|?]; tauto.
      * intros Hx. destruct (Z.eq_dec x old) as [->|]; auto.
    + pose proof (contains_In self w Hinv) as Hc.
      destruct (BSTree.contains self w).
      * apply Hshort. intros x. rewrite M2. split; [|tauto].
        intros [[= <-]|?]; [|assumption]. split; [apply Hc; reflexivity|exact Hne].
      * assert (Hw : ~ In w (BSTree.iter self)) by (rewrite <- Hc; discriminate).
        split; [|split].
        -- destruct (proj2 (BSTree_delete_spec self old Hinv) Hold)
             as (s1 & E1 & Hinv1 & M1).
           pose proof (ascending_NoDup _ (proj2 Hinv1)) as Hnd1.
           rewrite !BSTree_len_length.
           rewrite (length_removed _ _ old Hnd Hnd1 Hold M1).
           rewrite (length_added (BSTree.iter s1) (BSTree.iter s2) w Hnd1 Hnd2).
           ++ lia.
           ++ rewrite M1. tauto.
           ++ intros x. rewrite M2, M1. split.
              ** intros [[= <-]|?]; auto.
              ** intros [->|?]; auto.
        -- apply (contains_In s2 w Hinv2), M2. auto.
        -- destruct (BSTree.contains s2 old) eqn:Ec; [|reflexivity].
           apply (contains_In s2 old Hinv2), M2 in Ec.
           destruct Ec as [[= ->]|(_ & ?)]; contradiction.
  - apply Hshort. intros x. rewrite M2. split; [|tauto].
    intros [?|?]; [discriminate|assumption].
Qed.

Lemma X12_setitem_effects_witness :
  BSTree.len (snd (BSTree.setitem (BSTree.init (Some [Some 1; Some 2; Some 3]))
                     0 (Some 3)))
  = BSTree.len (BSTree.init (Some [Some 1; Some 2; Some 3])) - 1.
Proof.
  apply (X12_setitem_effects (BSTree.init (Some [Some 1; Some 2; Some 3]))
           0 (Some 3) 1).
  - apply reachable_init.
  - reflexivity.
Defined.

Lemma len_positive n : 1 <= Node.len n.
Proof.
  rewrite len_length. pose proof (iter_nonempty n).
  destruct (Node.iter n); [contradiction|simpl; lia].
Qed.

(** X13. The truth value of a tree agrees with its length and with its
    iteration: [bool(tree)] is [len(tree) != 0], and it is [False] exactly
    when the iteration yields nothing. *)
Theorem X13_truth_value self :
  BSTree.bool_ self = negb (BSTree.len self =? 0)
  /\ (BSTree.bool_ self = false <-> BSTree.iter self = []).
Proof.
  unfold BSTree.bool_, BSTree.len, BSTree.iter.
  destruct (root self) as [n|].
  - pose proof (len_positive n). pose proof (iter_nonempty n). split.
    + destruct (Z.eqb_spec (Node.len n) 0); [lia|reflexivity].
    + split; [discriminate|contradiction].
  - split; [reflexivity|tauto].
Qed.

(** X14. A reachable tree is rebuilt from its own iteration: the
    constructor applied to the values the tree yields, forwards or
    backwards, gives a tree with the same in-order sequence. *)
Theorem X14_rebuild_from_iteration self :
  reachable self ->
  BSTree.iter (BSTree.init (Some (map Some (BSTree.iter self))))
    = BSTree.iter self
  /\ BSTree.iter (BSTree.init (Some (map Some (BSTree.reversed self))))
    = BSTree.iter self.
Proof.
  intros Hr. destruct (reachable_invariants self Hr) as (_ & Hasc).
  split.
  - destruct (init_spec (map Some (BSTree.iter self))) as ((_ & A) & M).
    apply ascending_ext; auto. intros x. rewrite M. apply in_map_Some.
  - destruct (init_spec (map Some (BSTree.reversed self))) as ((_ & A) & M).
    apply ascending_ext; auto. intros x. rewrite M, in_map_Some.
    rewrite BSTree_reversed_rev. symmetry. apply in_rev.
Qed.

Lemma X14_rebuild_from_iteration_witness :
  BSTree.iter
    (BSTree.init
       (Some (map Some (BSTree.iter (BSTree.init (Some [Some 3; Some 1]))))))
    = BSTree.iter (BSTree.init (Some [Some 3; Some 1]))
  /\ BSTree.iter
       (BSTree.init
          (Some (map Some (BSTree.reversed (BSTree.init (Some [Some 3; Some 1]))))))
     = BSTree.iter (BSTree.init (Some [Some 3; Some 1])).
Proof.
  apply (X14_rebuild_from_iteration (BSTree.init (Some [Some 3; Some 1]))).
  apply reachable_init.
Defined.

(** ** Rendering *)

Lemma str_len_append a b :
  str_len (String.append a b) = str_len a + str_len b.
Proof.
  unfold str_len. induction a as [|c a IH]; simpl String.append; simpl String.length.
  - lia.
  - lia.
Qed.

Lemma str_len_nonneg s : 0 <= str_len s.
Proof. unfold str_len. lia. Qed.

Lemma str_len_concat_repeat s k :
  str_len (String.concat ""%string (repeat s k)) = Z.of_nat k * str_len s.
Proof.
  induction k as [|k IH]; [reflexivity|].
  cbn [repeat String.concat]. destruct (repeat s k) eqn:E.
  - destruct k; [|discriminate]. lia.
  - rewrite !str_len_append, IH. unfold str_len at 2. simpl String.length. lia.
Qed.

(** [k * c] for a one-character string [c] has [max(k, 0)] characters. *)
Lemma str_len_mul k c :
  str_len c = 1 -> str_len (str_mul k c) = Z.max k 0.
Proof.
  intros Hc. unfold str_mul. rewrite str_len_concat_repeat, Hc. lia.
Qed.

Lemma str_len_ljust s width :
  str_len (ljust s width) = Z.max (str_len s) width.
Proof.
  unfold ljust. rewrite str_len_append, str_len_mul by reflexivity.
  pose proof (str_len_nonneg s). lia.
Qed.

Lemma str_len_rjust s width :
  str_len (rjust s width) = Z.max (str_len s) width.
Proof.
  unfold rjust. rewrite str_len_append, str_len_mul by reflexivity.
  pose proof (str_len_nonneg s). lia.
Qed.

Lemma str_of_int_nonempty v : 1 <= str_len (str_of_int v).
Proof.
  unfold str_of_int, str_len.
  destruct (Z.to_int v) as [d|d]; simpl.
  - destruct d; simpl; lia.
  - lia.
Qed.

Lemma Forall_width_map (f : String.string -> String.string) lines n k :
  Forall (fun line => str_len line = n) lines ->
  (forall line, str_len (f line) = str_len line + k) ->
  Forall (fun line => str_len line = n + k) (map f lines).
Proof.
  intros H Hf. rewrite Forall_forall in *. intros line Hl.
  apply in_map_iff in Hl. destruct Hl as (l0 & <- & Hl0).
  rewrite Hf, (H _ Hl0). reflexivity.
Qed.

Lemma Forall_width_pad lines n k :
  Forall (fun line => str_len line = n) lines -> 0 <= n ->
  Forall (fun line => str_len line = n)
    (lines ++ repeat (str_mul n " "%string) k).
Proof.
  intros H Hn. apply Forall_app. split; [exact H|].
  rewrite Forall_forall. intros line Hl. apply repeat_spec in Hl. subst.
  rewrite str_len_mul by reflexivity. lia.
Qed.

Lemma append_empty_r s : String.append s ""%string = s.
Proof. induction s as [|c s IH]; simpl; congruence. Qed.

Lemma str_helper_well_rendered t : well_rendered t (BSTree.str_helper t).
Proof.
  induction t as [v b l r IHl IHr] using node_induction.
  pose proof (str_of_int_nonempty v) as Hu.
  set (s := str_of_int v) in *.
  assert (Hdiv : 0 <= str_len s / 2 < str_len s).
  { split; [apply Z.div_pos; lia|apply Z.div_lt_upper_bound; lia]. }
  destruct l as [tl|], r as [tr|]; cbn [present] in *;
    cbn [BSTree.str_helper]; unfold well_rendered;
    repeat match goal with
           | |- context [Node.str (Node v b ?l ?r)] =>
               change (Node.str (Node v b l r)) with s
           end.
  - (* both children *)
    destruct (BSTree.str_helper tl) as [[[ll n] p] x].
    destruct (BSTree.str_helper tr) as [[[rl m] q] y].
    destruct IHl as (Lp & Hp & Lw & Lx & _).
    destruct IHr as (Rq & Hq & Rw & Ry & _).
    unfold well_rendered. rewrite height_Node. cbn [oheight].
    set (left_ := if p <? q then ll ++ repeat (str_mul n " "%string) (Z.to_nat (q - p))
                  else ll).
    set (right_ := if p <? q then rl
                   else if q <? p
                        then rl ++ repeat (str_mul m " "%string) (Z.to_nat (p - q))
                        else rl).
    assert (Ll : Z.of_nat (length left_) = Z.max p q).
    { unfold left_. destruct (Z.ltb_spec p q);
        [rewrite length_app, repeat_length|]; lia. }
    assert (Lr : Z.of_nat (length right_) = Z.max p q).
    { unfold right_. destruct (Z.ltb_spec p q); [lia|].
      destruct (Z.ltb_spec q p); [rewrite length_app, repeat_length|]; lia. }
    assert (Wl : Forall (fun line => str_len line = n) left_).
    { unfold left_. destruct (p <? q); [apply Forall_width_pad; [auto|lia]|auto]. }
    assert (Wr : Forall (fun line => str_len line = m) right_).
    { unfold right_. destruct (p <? q); [auto|].
      destruct (q <? p); [apply Forall_width_pad; [auto|lia]|auto]. }
    split; [|split; [|split; [|split]]].
    + cbn [length]. rewrite length_map, length_combine. lia.
    + lia.
    + constructor; [|constructor].
      * rewrite !str_len_append, str_len_rjust, str_len_ljust.
        rewrite !str_len_mul by reflexivity. lia.
      * rewrite !str_len_append, !str_len_ljust, !str_len_rjust.
        rewrite str_len_mul by reflexivity.
        change (str_len "/"%string) with 1. change (str_len backslash) with 1.
        lia.
      * rewrite Forall_forall in *. intros line Hl.
        apply in_map_iff in Hl. destruct Hl as ([a c] & <- & Hac).
        cbn [fst snd]. rewrite !str_len_append.
        rewrite (Wl a (in_combine_l _ _ _ _ Hac)).
        rewrite (Wr c (in_combine_r _ _ _ _ Hac)).
        rewrite str_len_mul by reflexivity. lia.
    + lia.
    + cbn [hd]. eexists. eexists. split; [reflexivity|].
      rewrite str_len_rjust, str_len_mul by reflexivity. lia.
  - (* only a left child *)
    destruct (BSTree.str_helper tl) as [[[ll n] p] x].
    destruct IHl as (Lp & Hp & Lw & Lx & _).
    unfold well_rendered. rewrite height_Node. cbn [oheight].
    pose proof (height_nonneg tl).
    split; [|split; [|split; [|split]]].
    + cbn [length]. rewrite length_map. lia.
    + lia.
    + constructor; [|constructor].
      * rewrite !str_len_append, str_len_rjust.
        rewrite !str_len_mul by reflexivity. lia.
      * rewrite !str_len_ljust, !str_len_rjust.
        change (str_len "/"%string) with 1. lia.
      * apply Forall_width_map; [exact Lw|]. intros line.
        rewrite str_len_append, str_len_mul by reflexivity. lia.
    + lia.
    + cbn [hd]. exists (rjust (str_mul (n - x - 1) "_"%string) n), ""%string.
      split.
      * rewrite append_empty_r. reflexivity.
      * rewrite str_len_rjust, str_len_mul by reflexivity. lia.
  - (* only a right child *)
    destruct (BSTree.str_helper tr) as [[[rl m] q] y].
    destruct IHr as (Rq & Hq & Rw & Ry & _).
    unfold well_rendered. rewrite height_Node. cbn [oheight].
    pose proof (height_nonneg tr).
    split; [|split; [|split; [|split]]].
    + cbn [length]. rewrite length_map. lia.
    + lia.
    + constructor; [|constructor].
      * rewrite !str_len_append, str_len_ljust.
        rewrite !str_len_mul by reflexivity. lia.
      * rewrite !str_len_ljust, !str_len_rjust.
        change (str_len backslash) with 1. lia.
      * apply Forall_width_map; [exact Rw|]. intros line.
        rewrite str_len_append, str_len_mul by reflexivity. lia.
    + lia.
    + cbn [hd]. exists ""%string. eexists. split; [reflexivity|].
      change (str_len ""%string) with 0. lia.
  - (* a leaf *)
    unfold well_rendered. rewrite height_Node. cbn [oheight length hd].
    split; [reflexivity|]. split; [reflexivity|].
    split; [repeat constructor|]. split; [exact Hdiv|].
    exists ""%string, ""%string. split.
    + rewrite append_empty_r. reflexivity.
    + change (str_len ""%string) with 0. lia.
Qed.

Lemma str_len_join lines n :
  lines <> [] ->
  Forall (fun line => str_len line = n) lines ->
  str_len (String.concat newline lines)
  = Z.of_nat (length lines) * (n + 1) - 1.
Proof.
  induction lines as [|a lines IH]; [contradiction|]. intros _ Hw.
  inversion Hw as [|? ? Ha Hw']; subst.
  destruct lines as [|a' lines].
  - cbn [String.concat length]. lia.
  - change (String.concat newline (a :: a' :: lines))
      with (String.append a
              (String.append newline (String.concat newline (a' :: lines)))).
    rewrite !str_len_append, IH by (auto; discriminate).
    change (str_len newline) with 1. cbn [length]. lia.
Qed.

(** X15. For a tree of integers the picture [str(tree)] draws is a
    rectangle.  The label [str(value)] of an integer is never empty, and on
    that the rest stands ([str_helper] gives a leaf with an empty label
    width 0 and middle 0): for every tree of integers, [str_helper] returns
    as many lines as it reports, namely two per level plus one, every line
    exactly as wide as the reported width, with the root's label on the
    first line around the reported middle column; the string [__str__]
    returns joins these lines with line feeds, so it has
    [(2*height + 1) * (width + 1) - 1] characters, and it is empty for the
    empty tree. *)
Theorem X15_rendering_is_a_rectangle :
  (forall t : node, 1 <= str_len (Node.str t))
  /\ (forall t, well_rendered t (BSTree.str_helper t))
  /\ (forall self t, root self = Some t ->
      exists lines n p x,
        BSTree.str_helper t = (lines, n, p, x)
        /\ BSTree.str self = String.concat newline lines
        /\ str_len (BSTree.str self) = (2 * Node.height t + 1) * (n + 1) - 1)
  /\ (forall self, root self = None -> BSTree.str self = ""%string).
Proof.
  split; [intros t; apply str_of_int_nonempty|].
  split; [exact str_helper_well_rendered|]. split.
  - intros self t Hroot. unfold BSTree.str. rewrite Hroot.
    pose proof (str_helper_well_rendered t) as H.
    destruct (BSTree.str_helper t) as [[[lines n] p] x].
    destruct H as (Hp & Hh & Hw & _).
    exists lines, n, p, x. split; [reflexivity|]. split; [reflexivity|].
    rewrite (str_len_join lines n); auto.
    + rewrite Hp, Hh. reflexivity.
    + pose proof (height_nonneg t). destruct lines; [simpl in Hp; lia|discriminate].
  - intros self Hroot. unfold BSTree.str. rewrite Hroot. reflexivity.
Qed.

Lemma X15_rendering_is_a_rectangle_witness :
  exists lines n p x,
    BSTree.str_helper (Node 2 0 (Some (Node 1 0 None None)) (Some (Node 3 0 None None)))
      = (lines, n, p, x)
    /\ BSTree.str (BSTree.init (Some [Some 1; Some 2; Some 3]))
       = String.concat newline lines
    /\ str_len (BSTree.str (BSTree.init (Some [Some 1; Some 2; Some 3])))
       = (2 * Node.height
                (Node 2 0 (Some (Node 1 0 None None)) (Some (Node 3 0 None None)))
          + 1) * (n + 1) - 1.
Proof.
  apply (proj1 (proj2 (proj2 X15_rendering_is_a_rectangle))
           (BSTree.init (Some [Some 1; Some 2; Some 3]))).
  reflexivity.
Defined.

(** ** Rebalancing, repetition, history *)

(** X16. [balance] does what its docstring says: on a node whose
    children are balanced and whose own balance factor is exact and off by
    at most one step (within -2..2), it returns a balanced subtree with the
    same in-order sequence, of the same height or one less; a node already
    within -1..1 is returned as it is. *)
Theorem X16_balance_restores_the_invariant v b l r :
  present avl l -> present avl r ->
  b = oheight r - oheight l -> -2 <= b <= 2 ->
  exists n',
    Node.balance (Node v b l r) = Return n'
    /\ avl n'
    /\ Node.iter n' = Node.iter (Node v b l r)
    /\ Node.height (Node v b l r) - 1 <= Node.height n'
       <= Node.height (Node v b l r)
    /\ (-1 <= b <= 1 -> n' = Node v b l r).
Proof.
  intros Hl Hr Hb Hrange.
  destruct (balance_spec v b l r Hl Hr Hb Hrange) as (n' & E & Hn' & It & Hc).
  exists n'. split; [exact E|]. split; [exact Hn'|]. split; [exact It|].
  destruct Hc as [(? & ->)|[?|[?|[?|?]]]]; split; try lia; intros; auto; lia.
Qed.

Lemma X16_balance_restores_the_invariant_witness :
  exists n',
    Node.balance (Node 1 2 None (Some (Node 2 1 None (Some (Node 3 0 None None)))))
      = Return n'
    /\ avl n'
    /\ Node.iter n'
       = Node.iter (Node 1 2 None (Some (Node 2 1 None (Some (Node 3 0 None None)))))
    /\ Node.height (Node 1 2 None (Some (Node 2 1 None (Some (Node 3 0 None None)))))
         - 1 <= Node.height n'
       <= Node.height (Node 1 2 None (Some (Node 2 1 None (Some (Node 3 0 None None)))))
    /\ (-1 <= 2 <= 1 ->
        n' = Node 1 2 None (Some (Node 2 1 None (Some (Node 3 0 None None))))).
Proof.
  apply X16_balance_restores_the_invariant.
  - exact I.
  - simpl. repeat split; try reflexivity; discriminate.
  - reflexivity.
  - lia.
Defined.

(** X17. A repeated [delete] is rejected: on a reachable tree, after
    [delete(v)] (whatever it answered) a second [delete(v)] answers [False]
    and hands back the same tree. *)
Theorem X17_delete_twice self val :
  reachable self ->
  let once := snd (BSTree.delete self val) in
  BSTree.delete once val = (false, once).
Proof.
  intros Hr once. pose proof (reachable_invariants self Hr) as Hinv.
  destruct val as [v|]; [|reflexivity].
  assert (Hinv' : invariants once) by (apply invariants_delete, Hinv).
  apply (BSTree_delete_spec once v Hinv'). unfold once.
  destruct (BSTree_delete_spec self v Hinv) as (Dout & Din).
  destruct (in_dec Z.eq_dec v (BSTree.iter self)) as [H|H].
  - destruct (Din H) as (s' & E & _ & M). rewrite E. cbn [snd].
    rewrite M. tauto.
  - rewrite (Dout H). exact H.
Qed.

Lemma X17_delete_twice_witness :
  BSTree.delete
    (snd (BSTree.delete (BSTree.init (Some [Some 1; Some 2])) (Some 2))) (Some 2)
  = (false, snd (BSTree.delete (BSTree.init (Some [Some 1; Some 2])) (Some 2))).
Proof.
  apply (X17_delete_twice (BSTree.init (Some [Some 1; Some 2])) (Some 2)).
  apply reachable_init.
Defined.

(** X18. The iteration forgets the history: two sequences of [insert]
    and [delete] calls that leave the same set of values give trees with the
    same in-order sequence, and so the same length and the same answers to
    [in]; the shape is not determined by the values (inserting 1, 2, 3, 4
    and inserting 4, 3, 2, 1 give different roots). *)
Theorem X18_iteration_forgets_history :
  (forall calls1 calls2,
      (forall x, spec_values calls1 x <-> spec_values calls2 x) ->
      BSTree.iter (run calls1) = BSTree.iter (run calls2)
      /\ BSTree.len (run calls1) = BSTree.len (run calls2)
      /\ forall v, BSTree.contains (run calls1) v = BSTree.contains (run calls2) v)
  /\ BSTree.iter (BSTree.init (Some [Some 1; Some 2; Some 3; Some 4]))
     = BSTree.iter (BSTree.init (Some [Some 4; Some 3; Some 2; Some 1]))
  /\ root (BSTree.init (Some [Some 1; Some 2; Some 3; Some 4]))
     <> root (BSTree.init (Some [Some 4; Some 3; Some 2; Some 1])).
Proof.
  split; [|split; [reflexivity|discriminate]].
  intros calls1 calls2 Hsame.
  pose proof (reachable_invariants _ (reachable_run calls1)) as I1.
  pose proof (reachable_invariants _ (reachable_run calls2)) as I2.
  assert (M : forall calls x,
             In x (BSTree.iter (run calls)) <-> spec_values calls x).
  { intros calls. apply run_spec; [exact invariants_empty|]. simpl. tauto. }
  assert (E : BSTree.iter (run calls1) = BSTree.iter (run calls2)).
  { apply ascending_ext; [apply I1|apply I2|].
    intros x. rewrite !M. apply Hsame. }
  split; [exact E|]. split.
  - rewrite !BSTree_len_length, E. reflexivity.
  - intros v. apply bool_eq_iff.
    rewrite (contains_In _ v I1), (contains_In _ v I2), E. tauto.
Qed.

Lemma X18_iteration_forgets_history_witness :
  BSTree.iter (run [CallInsert (Some 1); CallInsert (Some 2); CallDelete (Some 1)])
  = BSTree.iter (run [CallInsert (Some 2)]).
Proof.
  apply (proj1 X18_iteration_forgets_history
           [CallInsert (Some 1); CallInsert (Some 2); CallDelete (Some 1)]
           [CallInsert (Some 2)]).
  intros x. unfold spec_values. simpl. lia.
Defined.

(** ** Printed representation *)

Lemma append_assoc a b c :
  String.append (String.append a b) c = String.append a (String.append b c).
Proof. induction a as [|x a IH]; simpl; congruence. Qed.

Lemma append_cancel_l p a b :
  String.append p a = String.append p b -> a = b.
Proof. induction p as [|x p IH]; simpl; [auto|]. intros [= H]. auto. Qed.

(** Two numbers, each followed by nothing or by a closing character, are
    read off a common string in one way only. *)
Lemma split_at_close a : forall b ra rb,
  all_chars (fun c => ~ closes c) a ->
  all_chars (fun c => ~ closes c) b ->
  closed_here ra -> closed_here rb ->
  String.append a ra = String.append b rb ->
  a = b /\ ra = rb.
Proof.
  induction a as [|x a IH]; intros b ra rb Ha Hb Hra Hrb E.
  - destruct b as [|y b]; [auto|]. simpl in E. subst ra.
    simpl in Hra, Hb. tauto.
  - destruct b as [|y b].
    + simpl in E. subst rb. simpl in Hrb, Ha. tauto.
    + simpl in E. injection E as -> E. simpl in Ha, Hb.
      destruct (IH b ra rb) as (-> & ->); tauto.
Qed.

Lemma digits_open d :
  all_chars (fun c => ~ closes c) (DecimalString.NilEmpty.string_of_uint d).
Proof.
  induction d; simpl; first [exact I | split; [|assumption]];
    unfold closes; intros [H|[H|H]]; discriminate H.
Qed.

Lemma str_of_int_open v : all_chars (fun c => ~ closes c) (str_of_int v).
Proof.
  unfold str_of_int.
  assert (U : forall d, all_chars (fun c => ~ closes c)
                          (DecimalString.NilZero.string_of_uint d)).
  { intros d. destruct d; try apply digits_open.
    simpl. split; [|exact I]. unfold closes. intros [H|[H|H]]; discriminate H. }
  destruct (Z.to_int v) as [d|d]; simpl.
  - apply U.
  - split; [|apply U]. unfold closes. intros [H|[H|H]]; discriminate H.
Qed.

Lemma to_int_proper v :
  Z.to_int v <> Decimal.Pos Decimal.Nil /\ Z.to_int v <> Decimal.Neg Decimal.Nil.
Proof.
  destruct v as [|p|p]; simpl; split; try discriminate;
    intros [= H]; exact (DecimalPos.Unsigned.to_uint_nonnil p H).
Qed.

Lemma str_of_int_inj v w : str_of_int v = str_of_int w -> v = w.
Proof.
  unfold str_of_int. intros E.
  apply (f_equal DecimalString.NilZero.int_of_string) in E.
  destruct (to_int_proper v) as (V1 & V2). destruct (to_int_proper w) as (W1 & W2).
  rewrite !DecimalString.NilZero.isi in E by assumption.
  injection E as E. apply (f_equal Z.of_int) in E.
  rewrite !DecimalZ.of_to in E. exact E.
Qed.

Lemma join_cons x r t :
  String.append (String.concat ", "%string (map repr_int (x :: r))) t
  = String.append (repr_int x)
      match r with
      | [] => t
      | _ :: _ =>
          String.append ", "%string
            (String.append (String.concat ", "%string (map repr_int r)) t)
      end.
Proof.
  destruct r as [|y r]; [reflexivity|].
  change (String.concat ", "%string (map repr_int (x :: y :: r)))
    with (String.append (repr_int x)
            (String.append ", "%string
               (String.concat ", "%string (map repr_int (y :: r))))).
  rewrite !append_assoc. reflexivity.
Qed.

Lemma join_inj l1 : forall l2,
  String.append (String.concat ", "%string (map repr_int l1)) "])"%string
  = String.append (String.concat ", "%string (map repr_int l2)) "])"%string ->
  l1 = l2.
Proof.
  assert (Hclosed : forall r : list Z,
    closed_here
      match r with
      | [] => "])"%string
      | _ :: _ =>
          String.append ", "%string
            (String.append (String.concat ", "%string (map repr_int r))
               "])"%string)
      end).
  { intros [|y r]; simpl; unfold closes; auto. }
  induction l1 as [|x r1 IH]; intros [|y r2] E; [reflexivity| | |].
  - exfalso. rewrite join_cons in E.
    destruct (split_at_close ""%string (repr_int y) _ _ I
                (str_of_int_open y) (Hclosed []) (Hclosed r2) E) as (H & _).
    pose proof (str_of_int_nonempty y). unfold repr_int in H.
    rewrite <- H in *. unfold str_len in *. simpl in *. lia.
  - exfalso. rewrite join_cons in E.
    destruct (split_at_close (repr_int x) ""%string _ _
                (str_of_int_open x) I (Hclosed r1) (Hclosed []) E) as (H & _).
    pose proof (str_of_int_nonempty x). unfold repr_int in H.
    rewrite H in *. unfold str_len in *. simpl in *. lia.
  - rewrite !join_cons in E.
    destruct (split_at_close (repr_int x) (repr_int y) _ _
                (str_of_int_open x) (str_of_int_open y)
                (Hclosed r1) (Hclosed r2) E) as (Hxy & Hrest).
    apply str_of_int_inj in Hxy. subst y. f_equal.
    destruct r1 as [|x1 r1], r2 as [|y2 r2]; [reflexivity| | |].
    + simpl in Hrest. discriminate Hrest.
    + simpl in Hrest. discriminate Hrest.
    + apply IH. apply (append_cancel_l ", "%string). exact Hrest.
Qed.

Lemma repr_list_inj l1 l2 :
  String.append (repr_list l1) ")"%string
  = String.append (repr_list l2) ")"%string ->
  l1 = l2.
Proof.
  unfold repr_list. rewrite !append_assoc. intros E.
  apply append_cancel_l in E. apply join_inj. exact E.
Qed.

(** X19. The printed representation shows the contents faithfully:
    [repr(tree)] is of the form [BSTree()] for the empty tree only, and two
    trees with the same [repr] iterate over the same values; likewise two
    nodes with the same [repr] hold the same value and balance factor. *)
Theorem X19_repr_is_faithful :
  (forall self1 self2,
      BSTree.repr self1 = BSTree.repr self2 <->
      BSTree.iter self1 = BSTree.iter self2)
  /\ (forall self,
      BSTree.repr self = "BSTree()"%string <-> BSTree.iter self = [])
  /\ (forall n1 n2,
      Node.repr n1 = Node.repr n2 <->
      Node.value n1 = Node.value n2 /\ Node.bf n1 = Node.bf n2).
Proof.
  assert (Hfwd : forall self1 self2,
             BSTree.repr self1 = BSTree.repr self2 ->
             BSTree.iter self1 = BSTree.iter self2).
  { intros self1 self2. unfold BSTree.repr.
    destruct (BSTree.iter self1) as [|a l1] eqn:E1,
             (BSTree.iter self2) as [|c l2] eqn:E2; intros E.
    - reflexivity.
    - exfalso. apply (append_cancel_l "BSTree("%string) in E.
      unfold repr_list in E. simpl in E. discriminate E.
    - exfalso. apply (append_cancel_l "BSTree("%string) in E.
      unfold repr_list in E. simpl in E. discriminate E.
    - apply (append_cancel_l "BSTree("%string) in E.
      apply repr_list_inj in E. exact E. }
  split; [|split].
  - intros self1 self2. split; [apply Hfwd|].
    intros E. unfold BSTree.repr. rewrite E. reflexivity.
  - intros self. split.
    + intros E. unfold BSTree.repr in E.
      destruct (BSTree.iter self) as [|a l]; [reflexivity|].
      exfalso. apply (append_cancel_l "BSTree("%string) in E.
      unfold repr_list in E. simpl in E. discriminate E.
    + intros E. unfold BSTree.repr. rewrite E. reflexivity.
  - intros [v1 b1 l1 r1] [v2 b2 l2 r2]. cbn [Node.value Node.bf]. split.
    + unfold Node.repr. cbn [Node.value Node.bf]. intros E.
      apply (append_cancel_l "Node("%string) in E.
      assert (C : forall t, closed_here (String.append ", balance="%string t))
        by (intros t; simpl; unfold closes; auto).
      assert (C' : closed_here ")"%string) by (simpl; unfold closes; auto).
      destruct (split_at_close (repr_int v1) (repr_int v2) _ _
                  (str_of_int_open v1) (str_of_int_open v2) (C _) (C _) E)
        as (Hv & Hrest).
      apply (append_cancel_l ", balance="%string) in Hrest.
      destruct (split_at_close (repr_int b1) (repr_int b2) _ _
                  (str_of_int_open b1) (str_of_int_open b2) C' C' Hrest)
        as (Hb & _).
      split; apply str_of_int_inj; assumption.
    + intros (-> & ->). reflexivity.
Qed.
